(** * structlog.threadlocal: thread-local context classes and [tmp_bind]

    A shallow embedding of [src/structlog/threadlocal.py].  Python objects
    with identity (generated classes, backing mappings, context instances)
    live in an explicit heap; every function of the module becomes a
    computation that threads the heap and may raise.  The identity of the
    calling thread is an explicit argument, because [threading.local]
    stores one attribute namespace per thread. *)

From Stdlib Require Import ZArith.
From stdpp Require Import base option list gmap strings.

Open Scope string_scope.
Open Scope nat_scope.

(** ** Identities and plain data *)

Abbreviation tid := nat.       (* a thread *)
Abbreviation addr := nat.      (* identity of a backing mapping object *)
Abbreviation clsid := nat.     (* identity of a class made by [wrap_dict] *)
Abbreviation instid := nat.    (* identity of a context instance *)

(** Contents of a mapping object: string keys, integer values. *)
Abbreviation pydict := (gmap string Z).

(** The dict-like classes handed to [wrap_dict].  Called with no argument,
    each of them builds an empty mapping. *)
Inductive dict_class := DictClass | OrderedDictClass.

Definition dict_class_call (dc : dict_class) : pydict := ∅.

(** A class object that can be the context class of a logger: a plain
    dict-like class, or a class produced by [wrap_dict] (these are the
    subclasses of [_ThreadLocalDictWrapper]). *)
Inductive pyclass :=
| Plain (dc : dict_class)
| Wrapped (c : clsid).

Global Instance dict_class_eq_dec : EqDecision dict_class.
Proof. solve_decision. Defined.
Global Instance pyclass_eq_dec : EqDecision pyclass.
Proof. solve_decision. Defined.

(** [issubclass(cls, _ThreadLocalDictWrapper)] *)
Definition issubclass_wrapper (k : pyclass) : bool :=
  match k with Wrapped _ => true | Plain _ => false end.

(** A bound method of a mapping object: [getattr(d, name)]. *)
Record bound_method := BoundMethod { im_self : addr; im_name : string }.

Global Instance bound_method_eq_dec : EqDecision bound_method.
Proof. solve_decision. Defined.

(** A generated class: its name, and the two class attributes set by
    [wrap_dict].  [_tl] is the [threading.local()] object: for each thread
    that has assigned it, the value of its attribute [dict_]. *)
Record wrapped_class := WrappedClass {
  cls_name : string;
  _dict_class : dict_class;
  _tl : gmap tid addr;
}.

(** A context instance: its class and its instance dictionary, which only
    ever receives the methods stored by [__getattr__]. *)
Record instance := MkInstance {
  inst_class : clsid;
  inst_dict : gmap string bound_method;
}.

Record heap := Heap {
  classes : list wrapped_class;
  mappings : list pydict;
  instances : list instance;
}.

Definition empty_heap : heap := Heap [] [] [].

(** ** Exceptions and the heap monad *)

Inductive exn :=
| ValueError                     (* raised by [tmp_bind] *)
| AttributeError (name : string)
| TypeError
| KeyError (k : string)
| SystemError                    (* a dangling object identity *)
| UserError (n : nat).           (* whatever a caller's block raises *)

Global Instance exn_eq_dec : EqDecision exn.
Proof. solve_decision. Defined.

Inductive outcome (A : Type) :=
| Return (x : A)
| Raise (e : exn).
Arguments Return {A} x.
Arguments Raise {A} e.

Definition M (A : Type) : Type := heap → outcome A * heap.

Definition ret {A} (x : A) : M A := λ σ, (Return x, σ).
Definition raise {A} (e : exn) : M A := λ σ, (Raise e, σ).
Definition bindM {A B} (m : M A) (k : A → M B) : M B := λ σ,
  match m σ with
  | (Return x, σ') => k x σ'
  | (Raise e, σ') => (Raise e, σ')
  end.

Notation "'let*' x := m 'in' k" := (bindM m (λ x, k))
  (at level 10, x pattern, m at level 100, k at level 200).
Notation "m ;;; k" := (bindM m (λ _, k))
  (at level 100, k at level 200, right associativity).

Definition get_heap : M heap := λ σ, (Return σ, σ).

(** Dereferencing an identity; a dangling one cannot be produced by the
    operations below (see [wf_heap]). *)
Definition deref {A} (o : option A) : M A :=
  match o with Some x => ret x | None => raise SystemError end.

Definition the_class (c : clsid) : M wrapped_class :=
  let* σ := get_heap in deref (classes σ !! c).
Definition the_instance (i : instid) : M instance :=
  let* σ := get_heap in deref (instances σ !! i).
Definition the_mapping (a : addr) : M pydict :=
  let* σ := get_heap in deref (mappings σ !! a).

Definition set_class (c : clsid) (C : wrapped_class) : M unit := λ σ,
  (Return tt, Heap (<[c := C]> (classes σ)) (mappings σ) (instances σ)).
Definition set_instance (i : instid) (o : instance) : M unit := λ σ,
  (Return tt, Heap (classes σ) (mappings σ) (<[i := o]> (instances σ))).
Definition set_mapping (a : addr) (d : pydict) : M unit := λ σ,
  (Return tt, Heap (classes σ) (<[a := d]> (mappings σ)) (instances σ)).

Definition new_class (C : wrapped_class) : M clsid := λ σ,
  (Return (length (classes σ)),
   Heap (classes σ ++ [C]) (mappings σ) (instances σ)).
Definition new_instance (o : instance) : M instid := λ σ,
  (Return (length (instances σ)),
   Heap (classes σ) (mappings σ) (instances σ ++ [o])).
Definition new_mapping (d : pydict) : M addr := λ σ,
  (Return (length (mappings σ)),
   Heap (classes σ) (mappings σ ++ [d]) (instances σ)).

(** ** [wrap_dict]

    [type('WrappedDict-' + str(uuid.uuid4()), (_ThreadLocalDictWrapper,), {})]
    makes a new class object on every call; the random identifier only
    feeds its name and is an explicit input here. *)
Definition wrap_dict (dict_class : dict_class) (uuid4 : string) : M clsid :=
  new_class {| cls_name := "WrappedDict-" ++ uuid4;
               _dict_class := dict_class;
               _tl := ∅ |}.

(** ** [_ThreadLocalDictWrapper] *)

(** [self.__class__._tl.dict_]: an [AttributeError] while the calling
    thread has not assigned [dict_]. *)
Definition tl_dict_ (t : tid) (c : clsid) : M addr :=
  let* C := the_class c in
  match _tl C !! t with
  | Some a => ret a
  | None => raise (AttributeError "dict_")
  end.

(** The property [_dict]. *)
Definition _dict (t : tid) (self : instid) : M addr :=
  let* o := the_instance self in
  let* C := the_class (inst_class o) in
  match _tl C !! t with
  | Some a => ret a
  | None =>
      let* a := new_mapping (dict_class_call (_dict_class C)) in
      set_class (inst_class o)
        {| cls_name := cls_name C; _dict_class := _dict_class C;
           _tl := <[t := a]> (_tl C) |} ;;;
      tl_dict_ t (inst_class o)
  end.

(** Arguments and results of the mapping methods. *)
Inductive pyarg :=
| AMap (m : pydict)                   (* a plain mapping, read by value *)
| APairs (l : list (string * Z))      (* an iterable of key/value pairs *)
| AInst (i : instid).                 (* a context instance *)

Inductive pyval :=
| VNone
| VInt (z : Z)
| VDict (m : pydict)
| VKeys (ks : list string).

(** Names that every dict-like backing class has and that neither
    [object] nor [_ThreadLocalDictWrapper] defines: normal lookup on a
    context instance misses them and [getattr] finds them on the mapping,
    whatever the backing class. *)
Definition dict_attrs : list string :=
  ["clear"; "copy"; "fromkeys"; "get"; "items"; "keys"; "pop"; "popitem";
   "setdefault"; "update"; "values";
   "__contains__"; "__delitem__"; "__getitem__"].

(** The further names of that kind, by backing class (CPython 3.9 and
    later): the union operators, [__reversed__] and [__class_getitem__]
    of [dict], and [move_to_end] of [OrderedDict]. *)
Definition class_attrs (dc : dict_class) : list string :=
  match dc with
  | DictClass =>
      ["__class_getitem__"; "__ior__"; "__or__"; "__reversed__"; "__ror__"]
  | OrderedDictClass =>
      ["__class_getitem__"; "__ior__"; "__or__"; "__reversed__"; "__ror__";
       "move_to_end"]
  end.

(** The names [getattr] finds on a mapping made by the backing class
    [dc], among those that normal lookup on a context instance misses. *)
Definition mapping_attrs (dc : dict_class) : list string :=
  (dict_attrs ++ class_attrs dc)%list.

(** The names normal lookup finds on a context instance without its
    instance dictionary: those of [object], of [_ThreadLocalDictWrapper]
    and the two class attributes set by [wrap_dict].  They never reach
    [__getattr__]. *)
Definition own_attrs : list string :=
  ["__class__"; "__delattr__"; "__dict__"; "__dir__"; "__doc__"; "__eq__";
   "__format__"; "__ge__"; "__getattr__"; "__getattribute__";
   "__getstate__"; "__gt__"; "__hash__"; "__init__"; "__init_subclass__";
   "__iter__"; "__le__"; "__len__"; "__lt__"; "__module__"; "__ne__";
   "__new__"; "__reduce__"; "__reduce_ex__"; "__repr__"; "__setattr__";
   "__setitem__"; "__sizeof__"; "__str__"; "__subclasshook__";
   "__weakref__"; "_dict"; "_dict_class"; "_tl"].

(** [__getattr__], reached when normal lookup found nothing.  The mapping
    [self._dict] was made by [self.__class__._dict_class], which decides
    the names [getattr] finds on it. *)
Definition __getattr__ (t : tid) (self : instid) (name : string)
  : M bound_method :=
  let* d := _dict t self in
  let* o := the_instance self in
  let* C := the_class (inst_class o) in
  if bool_decide (name ∈ mapping_attrs (_dict_class C)) then
    let method := BoundMethod d name in
    set_instance self
      {| inst_class := inst_class o;
         inst_dict := <[name := method]> (inst_dict o) |} ;;;
    ret method
  else raise (AttributeError name).

(** [getattr(self, name)] for a name outside [own_attrs]: the instance
    dictionary first, [__getattr__] only on a miss. *)
Definition getattr (t : tid) (self : instid) (name : string)
  : M bound_method :=
  let* o := the_instance self in
  match inst_dict o !! name with
  | Some method => ret method
  | None => __getattr__ t self name
  end.

(** [d.update] on the mapping object [d].  A positional
    context instance is taken for a mapping because it answers [keys]
    (through [getattr]); its items cannot be read with [[]], so the merge
    fails unless there is no key to read. *)
Definition dict_update (t : tid) (d : addr) (args : list pyarg)
    (kw : pydict) : M unit :=
  match args with
  | [] =>
      let* m := the_mapping d in set_mapping d (kw ∪ m)
  | [AMap src] =>
      let* m := the_mapping d in set_mapping d (kw ∪ (src ∪ m))
  | [APairs l] =>
      let* m := the_mapping d in
      set_mapping d (kw ∪ foldl (λ acc kv, <[kv.1 := kv.2]> acc) m l)
  | [AInst j] =>
      let* keys := getattr t j "keys" in
      let* src := the_mapping (im_self keys) in
      if bool_decide (src = ∅) then
        let* m := the_mapping d in set_mapping d (kw ∪ m)
      else raise TypeError
  | _ :: _ :: _ => raise TypeError
  end.

(** Calls of forwarded methods. *)
Inductive call :=
| c_get (k : string)
| c_pop (k : string)
| c_copy
| c_clear
| c_keys
| c_update (args : list pyarg) (kw : pydict).

Definition call_name (c : call) : string :=
  match c with
  | c_get _ => "get" | c_pop _ => "pop" | c_copy => "copy"
  | c_clear => "clear" | c_keys => "keys" | c_update _ _ => "update"
  end.

(** Calling a bound method of the mapping object [d]. *)
Definition apply_method (t : tid) (d : addr) (c : call) : M pyval :=
  match c with
  | c_get k =>
      let* m := the_mapping d in ret (from_option VInt VNone (m !! k))
  | c_pop k =>
      let* m := the_mapping d in
      match m !! k with
      | Some v => set_mapping d (delete k m) ;;; ret (VInt v)
      | None => raise (KeyError k)
      end
  | c_copy => let* m := the_mapping d in ret (VDict m)
  | c_clear => set_mapping d ∅ ;;; ret VNone
  | c_keys => let* m := the_mapping d in ret (VKeys (elements (dom m)))
  | c_update args kw => dict_update t d args kw ;;; ret VNone
  end.

(** [self.name(...)] for a forwarded name. *)
Definition call_forwarded (t : tid) (self : instid) (c : call) : M pyval :=
  let* method := getattr t self (call_name c) in
  apply_method t (im_self method) c.

(** [isinstance(x, self.__class__)] for a context instance [x]. *)
Definition isinstance_of_self (x self : instid) : M bool :=
  let* X := the_instance x in
  let* o := the_instance self in
  ret (bool_decide (inst_class X = inst_class o)).

Definition __init__ (t : tid) (self : instid) (args : list pyarg)
    (kw : pydict) : M unit :=
  let* same :=
    match args with
    | AInst x :: _ => isinstance_of_self x self
    | _ => ret false
    end in
  if same then
    let* d := _dict t self in dict_update t d [] kw
  else
    let* d := _dict t self in dict_update t d args kw.

(** Instantiating a generated class with [args] and keywords [kw]:
    [object.__new__] makes the instance, then [__init__] is called on it
    with the same arguments.  A keyword named [self] collides with the
    first parameter of [__init__]: that call raises [TypeError] and the
    body does not run. *)
Definition construct (t : tid) (c : clsid) (args : list pyarg)
    (kw : pydict) : M instid :=
  the_class c ;;;
  let* self := new_instance {| inst_class := c; inst_dict := ∅ |} in
  if bool_decide ("self" ∈ dom kw) then raise TypeError
  else
    __init__ t self args kw ;;;
    ret self.

(** Any object a context instance can be compared with. *)
Inductive pyobj :=
| OPlain (dc : dict_class) (m : pydict)
| OInst (i : instid).

(** [o.__class__] *)
Definition class_of (o : pyobj) : M pyclass :=
  match o with
  | OPlain dc _ => ret (Plain dc)
  | OInst i => let* o := the_instance i in ret (Wrapped (inst_class o))
  end.

Definition __eq__ (self : instid) (other : pyobj) : M bool :=
  let* a := class_of (OInst self) in
  let* b := class_of other in
  ret (bool_decide (a = b)).

Definition __ne__ (self : instid) (other : pyobj) : M bool :=
  let* r := __eq__ self other in ret (negb r).

Definition __iter__ (t : tid) (self : instid) : M (list string) :=
  let* d := _dict t self in
  let* m := the_mapping d in ret (elements (dom m)).

Definition __setitem__ (t : tid) (self : instid) (key : string)
    (value : Z) : M unit :=
  let* d := _dict t self in
  let* m := the_mapping d in set_mapping d (<[key := value]> m).

Definition __len__ (t : tid) (self : instid) : M nat :=
  let* d := _dict t self in
  let* m := the_mapping d in ret (size m).

(** [__repr__], kept structured: the class name and the mapping shown. *)
Definition __repr__ (t : tid) (self : instid) : M (string * pydict) :=
  let* o := the_instance self in
  let* C := the_class (inst_class o) in
  let* d := _dict t self in
  let* m := the_mapping d in ret (cls_name C, m).

(** ** The logger collaborator *)

(** Modelled from the spec: the logger class is not part of this module.
    The spec gives it three members: [_current_context_class], the context
    type configured on it; [_context], its live context (a context
    instance in thread-local mode, a plain mapping otherwise); and [bind],
    which builds the context of the new logger by calling the context
    type on the old context and the new values. *)
Record bound_logger := Logger {
  _current_context_class : pyclass;
  _context : pyobj;
}.

(** Modelled from the spec: [logger._context.copy()], a snapshot by
    value.  On a context instance [copy] is a forwarded name. *)
Definition context_copy (t : tid) (lg : bound_logger) : M pydict :=
  match _context lg with
  | OPlain _ m => ret m
  | OInst i =>
      let* method := getattr t i "copy" in the_mapping (im_self method)
  end.

(** The old context as the positional argument of the context type. *)
Definition context_arg (o : pyobj) : pyarg :=
  match o with OPlain _ m => AMap m | OInst i => AInst i end.

(** Modelled from the spec: [logger.bind] with keyword arguments
    [new_values]. *)
Definition bind (t : tid) (lg : bound_logger) (new_values : pydict)
  : M bound_logger :=
  match _current_context_class lg with
  | Wrapped c =>
      let* i := construct t c [context_arg (_context lg)] new_values in
      ret {| _current_context_class := Wrapped c; _context := OInst i |}
  | Plain dc =>
      match _context lg with
      | OPlain _ m =>
          ret {| _current_context_class := Plain dc;
                 _context := OPlain dc (new_values ∪ m) |}
      | OInst j =>
          let* keys := getattr t j "keys" in
          let* src := the_mapping (im_self keys) in
          if bool_decide (src = ∅) then
            ret {| _current_context_class := Plain dc;
                   _context := OPlain dc new_values |}
          else raise TypeError
      end
  end.

(** ** [tmp_bind]

    [tmp_bind] is a generator function under [contextlib.contextmanager]:
    the call only makes the generator.  Entering the [with] statement runs
    its body up to the [yield]; leaving the block normally resumes it after
    the [yield]; leaving the block with an exception throws that exception
    into it at the [yield]. *)

(** The generator suspended at its [yield]: its local variables. *)
Record frame := Frame {
  f_logger : bound_logger;
  f_saved : pydict;
}.

(** From the call to the [yield]: the frame and the yielded logger.
    The call binds its arguments first: a keyword named [logger] collides
    with the first parameter and the call itself raises [TypeError]. *)
Definition tmp_bind_enter (t : tid) (logger : bound_logger)
    (tmp_values : pydict) : M (frame * bound_logger) :=
  if bool_decide ("logger" ∈ dom tmp_values) then raise TypeError
  else if negb (issubclass_wrapper (_current_context_class logger)) then
    raise ValueError
  else
    let* saved := context_copy t logger in
    let* tmp_logger := bind t logger tmp_values in
    ret ({| f_logger := logger; f_saved := saved |}, tmp_logger).

(** After the [yield], resumed normally:
    [_tl.dict_.clear()] then [_tl.dict_.update(saved)]. *)
Definition tmp_bind_resume (t : tid) (fr : frame) : M unit :=
  match _current_context_class (f_logger fr) with
  | Wrapped c =>
      let* d := tl_dict_ t c in
      set_mapping d ∅ ;;;
      let* d' := tl_dict_ t c in
      dict_update t d' [AMap (f_saved fr)] ∅
  | Plain _ => raise (AttributeError "_tl")
  end.

(** Resumed by [throw(e)]: the [yield] stands in no [try] statement, so
    [e] leaves the generator from the [yield] itself. *)
Definition tmp_bind_throw {A} (t : tid) (fr : frame) (e : exn) : M A :=
  raise e.

(** The statement
    [with tmp_bind(logger, **tmp_values) as tmp_logger: block]. *)
Definition with_tmp_bind {A} (t : tid) (logger : bound_logger)
    (tmp_values : pydict) (block : bound_logger → M A) : M A :=
  let* entered := tmp_bind_enter t logger tmp_values in
  λ σ,
    match block entered.2 σ with
    | (Return x, σ') => (tmp_bind_resume t entered.1 ;;; ret x) σ'
    | (Raise e, σ') => tmp_bind_throw t entered.1 e σ'
    end.

(** ** Programs: sequences of calls made by threads *)

Inductive op :=
| op_wrap_dict (dc : dict_class) (uuid4 : string)
| op_construct (c : clsid) (args : list pyarg) (kw : pydict)
| op_setitem (i : instid) (key : string) (value : Z)
| op_iter (i : instid)
| op_len (i : instid)
| op_repr (i : instid)
| op_eq (i : instid) (other : pyobj)
| op_getattr (i : instid) (name : string)
| op_call (i : instid) (c : call)
| op_bind (lg : bound_logger) (kw : pydict)
| op_enter (lg : bound_logger) (kw : pydict)
| op_resume (fr : frame)
| op_raise (e : exn).

Definition run_op (t : tid) (o : op) : M unit :=
  match o with
  | op_wrap_dict dc u => wrap_dict dc u ;;; ret tt
  | op_construct c args kw => construct t c args kw ;;; ret tt
  | op_setitem i k v => __setitem__ t i k v
  | op_iter i => __iter__ t i ;;; ret tt
  | op_len i => __len__ t i ;;; ret tt
  | op_repr i => __repr__ t i ;;; ret tt
  | op_eq i other => __eq__ i other ;;; ret tt
  | op_getattr i name => getattr t i name ;;; ret tt
  | op_call i c => call_forwarded t i c ;;; ret tt
  | op_bind lg kw => bind t lg kw ;;; ret tt
  | op_enter lg kw => tmp_bind_enter t lg kw ;;; ret tt
  | op_resume fr => tmp_bind_resume t fr
  | op_raise e => raise e
  end.

(** A program is run call by call, each by its own thread, up to the
    first exception. *)
Fixpoint run_ops (p : list (tid * op)) : M unit :=
  match p with
  | [] => ret tt
  | (t, o) :: p' => run_op t o ;;; run_ops p'
  end.

(** ** Observations *)

(** The mapping object in the slot of class [c] for thread [t]. *)
Definition slot (σ : heap) (c : clsid) (t : tid) : option addr :=
  match classes σ !! c with
  | Some C => _tl C !! t
  | None => None
  end.

(** The context of type [c] seen by thread [t]. *)
Definition context (σ : heap) (c : clsid) (t : tid) : option pydict :=
  match slot σ c t with
  | Some a => mappings σ !! a
  | None => None
  end.

(** A context instance of class [c]. *)
Definition is_inst (σ : heap) (i : instid) (c : clsid) : Prop :=
  ∃ o, instances σ !! i = Some o ∧ inst_class o = c.

(** ** Well-formed heaps

    Every slot holds a live mapping object, no mapping object sits in two
    slots, every instance belongs to a live class, and a method stored on
    an instance carries its own name and is bound to a mapping of the
    instance's class. *)
Record wf_heap (σ : heap) : Prop := WfHeap {
  wf_slot_valid : ∀ c t a, slot σ c t = Some a → is_Some (mappings σ !! a);
  wf_slot_inj : ∀ c t c' t' a,
    slot σ c t = Some a → slot σ c' t' = Some a → c = c' ∧ t = t';
  wf_inst_class : ∀ i o,
    instances σ !! i = Some o → is_Some (classes σ !! inst_class o);
  wf_inst_dict : ∀ i o name m,
    instances σ !! i = Some o → inst_dict o !! name = Some m →
    im_name m = name ∧ ∃ t, slot σ (inst_class o) t = Some (im_self m);
}.

(** ** How the heap may change

    [evolves P Q σ σ']: objects are never lost; a slot once filled keeps
    its mapping object; only mappings in slots [(c, t)] with [P c t] change
    contents; slots of existing classes are filled only for [Q c t], and
    always with a new mapping object. *)
Record evolves (P Q : clsid → tid → Prop) (σ σ' : heap) : Prop := Evolves {
  ev_classes : ∀ c C, classes σ !! c = Some C →
    ∃ C', classes σ' !! c = Some C' ∧ cls_name C' = cls_name C
          ∧ _dict_class C' = _dict_class C;
  ev_slot : ∀ c t a, slot σ c t = Some a → slot σ' c t = Some a;
  ev_slot_new : ∀ c t a, slot σ c t = None → slot σ' c t = Some a →
    length (mappings σ) ≤ a ∧ (is_Some (classes σ !! c) → Q c t);
  ev_mappings_len : length (mappings σ) ≤ length (mappings σ');
  ev_mappings : ∀ a d, mappings σ !! a = Some d →
    (∀ c t, P c t → slot σ c t ≠ Some a) → mappings σ' !! a = Some d;
  ev_instances : ∀ i o, instances σ !! i = Some o →
    ∃ o', instances σ' !! i = Some o' ∧ inst_class o' = inst_class o
          ∧ inst_dict o ⊆ inst_dict o';
}.

Definition anything : clsid → tid → Prop := λ _ _, True.
Definition nothing : clsid → tid → Prop := λ _ _, False.
Definition of_thread (t : tid) : clsid → tid → Prop := λ _ t', t' = t.
Definition of_class (c : clsid) : clsid → tid → Prop := λ c' _, c' = c.

(** [keeps P Q m σ Ψ]: run from [σ], the computation [m] leaves a
    well-formed heap that [σ] evolves to, and a returned value satisfies
    [Ψ]. *)
Definition keeps (P Q : clsid → tid → Prop) {A} (m : M A) (σ : heap)
    (Ψ : A → heap → Prop) : Prop :=
  wf_heap (m σ).2 ∧ evolves P Q σ (m σ).2
  ∧ ∀ x, (m σ).1 = Return x → Ψ x (m σ).2.

(** ** Derived heaps and footprints *)

(** The heap after thread [t] has filled its slot of class [c]. *)
Definition fill_slot (σ : heap) (c : clsid) (C : wrapped_class) (t : tid)
  : heap :=
  Heap (<[c := {| cls_name := cls_name C; _dict_class := _dict_class C;
                  _tl := <[t := length (mappings σ)]> (_tl C) |}]>
          (classes σ))
       (mappings σ ++ [dict_class_call (_dict_class C)])
       (instances σ).

(** The heap after [setattr(self, name, method)]. *)
Definition with_attr (σ : heap) (i : instid) (o : instance) (name : string)
    (method : bound_method) : heap :=
  (set_instance i {| inst_class := inst_class o;
                     inst_dict := <[name := method]> (inst_dict o) |} σ).2.

(** The heap once [object.__new__] has made the instance. *)
Definition with_new_instance (σ : heap) (c : clsid) : heap :=
  (new_instance {| inst_class := c; inst_dict := ∅ |} σ).2.

(** What a call may write when thread [t] makes it: the slots [(c, t)]
    of the class it goes through, except for a forwarded call, which
    follows the stored method to any thread's mapping of that class. *)
Definition footprint (P : clsid → tid → Prop) (t : tid) (σ : heap)
    (o : op) : Prop :=
  match o with
  | op_construct c _ _ => P c t
  | op_setitem i _ _ => ∀ c, is_inst σ i c → P c t
  | op_call i _ => ∀ c t0, is_inst σ i c → P c t0
  | op_bind lg _ | op_enter lg _ =>
      ∀ c, _current_context_class lg = Wrapped c → P c t
  | op_resume fr =>
      ∀ c, _current_context_class (f_logger fr) = Wrapped c → P c t
  | _ => True
  end.

(** ** Concrete runs *)

Definition ctx_a1 : pydict := {["a" := 1%Z]}.
Definition kw_b2 : pydict := {["b" := 2%Z]}.
Definition kw_c3 : pydict := {["c" := 3%Z]}.
Definition ctx_z9 : pydict := {["z" := 9%Z]}.

(** Thread 0 makes a context type and binds [a=1]; [the_logger] holds the
    resulting context instance. *)
Definition single_thread_setup : list (tid * op) :=
  [(0, op_wrap_dict DictClass "0001"); (0, op_construct 0 [] ctx_a1)].
Definition heap_single : heap := (run_ops single_thread_setup empty_heap).2.
Definition the_logger : bound_logger :=
  {| _current_context_class := Wrapped 0; _context := OInst 0 |}.

(** The same logger object was first used by thread 1, which bound [z=9]
    and took [logger._context.copy()]; thread 0 then bound [a=1]. *)
Definition shared_logger_setup : list (tid * op) :=
  [(1, op_wrap_dict DictClass "0001"); (1, op_construct 0 [] ctx_z9);
   (1, op_call 0 c_copy); (0, op_construct 0 [] ctx_a1)].
Definition heap_shared : heap := (run_ops shared_logger_setup empty_heap).2.

(** One context instance used by two threads: thread 1 made it, binding
    [z=9], and called [update] through it once; thread 0 then bound
    [a=1]. *)
Definition stored_update_setup : list (tid * op) :=
  [(1, op_wrap_dict DictClass "0001"); (1, op_construct 0 [] ctx_z9);
   (1, op_call 0 (c_update [] ∅)); (0, op_construct 0 [] ctx_a1)].
Definition heap_stored_update : heap :=
  (run_ops stored_update_setup empty_heap).2.

(** A logger in plain mode. *)
Definition plain_logger : bound_logger :=
  {| _current_context_class := Plain DictClass;
     _context := OPlain DictClass ctx_a1 |}.

(** * Properties *)

Section evolution.
Context (P Q : clsid → tid → Prop).

Lemma evolves_refl σ : evolves P Q σ σ.
Proof.
  split; eauto; intros; first [congruence | by eexists].
Qed.

Lemma evolves_trans σ1 σ2 σ3 :
  evolves P Q σ1 σ2 → evolves P Q σ2 σ3 → evolves P Q σ1 σ3.
Proof.
  intros H12 H23. split.
  - intros c C HC.
    destruct (ev_classes _ _ _ _ H12 _ _ HC) as (C2 & HC2 & Hn & Hd).
    destruct (ev_classes _ _ _ _ H23 _ _ HC2) as (C3 & HC3 & Hn' & Hd').
    exists C3. split_and!; congruence.
  - intros c t a Ha. by apply (ev_slot _ _ _ _ H23), (ev_slot _ _ _ _ H12).
  - intros c t a Hnone Hsome.
    destruct (slot σ2 c t) as [a'|] eqn:H2.
    + pose proof (ev_slot _ _ _ _ H23 _ _ _ H2) as H3.
      assert (a' = a) as -> by congruence.
      by apply (ev_slot_new _ _ _ _ H12).
    + destruct (ev_slot_new _ _ _ _ H23 _ _ _ H2 Hsome) as [Hlen HQ].
      pose proof (ev_mappings_len _ _ _ _ H12). split; [lia|].
      intros [C HC]. apply HQ.
      destruct (ev_classes _ _ _ _ H12 _ _ HC) as (C2 & HC2 & _). eauto.
  - pose proof (ev_mappings_len _ _ _ _ H12).
    pose proof (ev_mappings_len _ _ _ _ H23). lia.
  - intros a d Ha Hframe.
    apply (ev_mappings _ _ _ _ H23); [by apply (ev_mappings _ _ _ _ H12)|].
    intros c t HP Hs.
    destruct (slot σ1 c t) as [a'|] eqn:H1.
    + pose proof (ev_slot _ _ _ _ H12 _ _ _ H1).
      apply (Hframe c t HP). congruence.
    + destruct (ev_slot_new _ _ _ _ H12 _ _ _ H1 Hs) as [Hlen _].
      apply lookup_lt_Some in Ha. lia.
  - intros i o Hi.
    destruct (ev_instances _ _ _ _ H12 _ _ Hi) as (o2 & Hi2 & Hc & Hd).
    destruct (ev_instances _ _ _ _ H23 _ _ Hi2) as (o3 & Hi3 & Hc' & Hd').
    exists o3. split_and!; [done|congruence|by etrans].
Qed.
End evolution.

Lemma evolves_mono (P Q P' Q' : clsid → tid → Prop) σ σ' :
  (∀ c t, P c t → P' c t) → (∀ c t, Q c t → Q' c t) →
  evolves P Q σ σ' → evolves P' Q' σ σ'.
Proof.
  intros HP HQ [H1 H2 H3 H4 H5 H6]. split; try done.
  - intros c t a Hn Hs. destruct (H3 c t a Hn Hs). split; auto.
  - intros a d Ha Hf. apply H5; [done|]. intros c t Hp. auto.
Qed.

(** ** Rules for [keeps] *)

Section keeps_rules.
Context (P Q : clsid → tid → Prop).

Lemma keeps_ret {A} (x : A) σ (Ψ : A → heap → Prop) :
  wf_heap σ → Ψ x σ → keeps P Q (ret x) σ Ψ.
Proof.
  intros Hwf HΨ. split_and!; simpl; [done|apply evolves_refl|].
  by intros ? [= <-].
Qed.

Lemma keeps_raise {A} e σ (Ψ : A → heap → Prop) :
  wf_heap σ → keeps P Q (raise e) σ Ψ.
Proof. intros Hwf. split_and!; simpl; [done|apply evolves_refl|done]. Qed.

Lemma keeps_mono {A} (m : M A) σ (Ψ Ψ' : A → heap → Prop) :
  keeps P Q m σ Ψ →
  (∀ x σ', wf_heap σ' → evolves P Q σ σ' → Ψ x σ' → Ψ' x σ') →
  keeps P Q m σ Ψ'.
Proof. intros (Hwf & Hev & HΨ) Himp. split_and!; auto. Qed.

Lemma keeps_bind {A B} (m : M A) (k : A → M B) σ
    (Φ : A → heap → Prop) (Ψ : B → heap → Prop) :
  keeps P Q m σ Φ →
  (∀ x σ', wf_heap σ' → evolves P Q σ σ' → Φ x σ' → keeps P Q (k x) σ' Ψ) →
  keeps P Q (bindM m k) σ Ψ.
Proof.
  intros (Hwf & Hev & HΦ) Hk. unfold keeps, bindM.
  destruct (m σ) as [[x|e] σ1]; simpl in *; [|done].
  destruct (Hk x σ1 Hwf Hev (HΦ x eq_refl)) as (Hwf2 & Hev2 & HΨ).
  split_and!; [done|by eapply evolves_trans|done].
Qed.

Lemma keeps_the_class c σ :
  wf_heap σ →
  keeps P Q (the_class c) σ (λ C σ', σ' = σ ∧ classes σ !! c = Some C).
Proof.
  intros Hwf. unfold the_class, bindM, get_heap, deref.
  destruct (classes σ !! c) as [C|] eqn:HC.
  - unfold keeps; simpl; rewrite HC; simpl. split_and!; [done|apply evolves_refl|].
    by intros ? [= <-].
  - unfold keeps; simpl; rewrite HC; simpl. split_and!; [done|apply evolves_refl|done].
Qed.

Lemma keeps_the_instance i σ :
  wf_heap σ →
  keeps P Q (the_instance i) σ
    (λ o σ', σ' = σ ∧ instances σ !! i = Some o).
Proof.
  intros Hwf. unfold the_instance, bindM, get_heap, deref.
  destruct (instances σ !! i) as [o|] eqn:Ho.
  - unfold keeps; simpl; rewrite Ho; simpl. split_and!; [done|apply evolves_refl|].
    by intros ? [= <-].
  - unfold keeps; simpl; rewrite Ho; simpl. split_and!; [done|apply evolves_refl|done].
Qed.

Lemma keeps_the_mapping a σ :
  wf_heap σ →
  keeps P Q (the_mapping a) σ (λ d σ', σ' = σ ∧ mappings σ !! a = Some d).
Proof.
  intros Hwf. unfold the_mapping, bindM, get_heap, deref.
  destruct (mappings σ !! a) as [d|] eqn:Hd.
  - unfold keeps; simpl; rewrite Hd; simpl. split_and!; [done|apply evolves_refl|].
    by intros ? [= <-].
  - unfold keeps; simpl; rewrite Hd; simpl. split_and!; [done|apply evolves_refl|done].
Qed.

(** Writing a mapping object. *)
Lemma wf_set_mapping σ a d : wf_heap σ → wf_heap (set_mapping a d σ).2.
Proof.
  intros [H1 H2 H3 H4]. split; simpl; try done.
  intros c t a' Hs. destruct (H1 c t a' Hs) as [x Hx].
  apply lookup_lt_is_Some. rewrite length_insert.
  by eapply lookup_lt_Some.
Qed.

Lemma evolves_set_mapping σ a d :
  (∀ d0, mappings σ !! a = Some d0 → ∃ c t, P c t ∧ slot σ c t = Some a) →
  evolves P Q σ (set_mapping a d σ).2.
Proof.
  intros Hown. split; simpl.
  - eauto.
  - done.
  - intros c t a' Hn Hs. unfold slot in *. simpl in *. congruence.
  - by rewrite length_insert.
  - intros a' d' Ha' Hframe. destruct (decide (a = a')) as [->|Hne].
    + destruct (Hown d' Ha') as (c & t & HP & Hs). by destruct (Hframe c t).
    + by rewrite list_lookup_insert_ne.
  - intros i o Hi. by exists o.
Qed.

Lemma keeps_set_mapping σ a d c t :
  wf_heap σ → P c t → slot σ c t = Some a →
  keeps P Q (set_mapping a d) σ
    (λ _ σ', σ' = (set_mapping a d σ).2).
Proof.
  intros Hwf HP Hs. split_and!; [by apply wf_set_mapping| |done].
  apply evolves_set_mapping. eauto.
Qed.
End keeps_rules.

(** ** The accessor [_dict] *)

Lemma slot_Some σ c t a :
  slot σ c t = Some a ↔ ∃ C, classes σ !! c = Some C ∧ _tl C !! t = Some a.
Proof.
  unfold slot. destruct (classes σ !! c) as [C|]; split.
  - eauto.
  - by intros (C' & [= <-] & ?).
  - done.
  - by intros (C' & ? & ?).
Qed.

Lemma slot_fill_slot σ c C t c' t' :
  classes σ !! c = Some C →
  slot (fill_slot σ c C t) c' t' =
    if decide (c' = c ∧ t' = t) then Some (length (mappings σ))
    else slot σ c' t'.
Proof.
  intros HC. unfold slot, fill_slot. simpl.
  destruct (decide (c' = c)) as [->|Hc].
  - rewrite list_lookup_insert_eq; [|by eapply lookup_lt_Some]. simpl.
    rewrite HC. destruct (decide (t' = t)) as [->|Ht].
    + rewrite lookup_insert_eq. by rewrite decide_True.
    + rewrite lookup_insert_ne; [|done]. rewrite decide_False; [done|tauto].
  - rewrite list_lookup_insert_ne; [|done]. rewrite decide_False; [done|tauto].
Qed.

Lemma _dict_hit t i σ o C a :
  instances σ !! i = Some o → classes σ !! inst_class o = Some C →
  _tl C !! t = Some a → _dict t i σ = (Return a, σ).
Proof.
  intros Ho HC Ha.
  unfold _dict, the_instance, the_class, bindM, get_heap, deref. simpl.
  rewrite Ho. simpl. rewrite HC. simpl. by rewrite Ha.
Qed.

Lemma _dict_miss t i σ o C :
  instances σ !! i = Some o → classes σ !! inst_class o = Some C →
  _tl C !! t = None →
  _dict t i σ = (Return (length (mappings σ)), fill_slot σ (inst_class o) C t).
Proof.
  intros Ho HC Ha.
  unfold _dict, the_instance, the_class, bindM, get_heap, deref. simpl.
  rewrite Ho. simpl. rewrite HC. simpl. rewrite Ha.
  unfold tl_dict_, the_class, bindM, get_heap, deref. simpl.
  rewrite list_lookup_insert_eq; [|by eapply lookup_lt_Some]. simpl.
  by rewrite lookup_insert_eq.
Qed.

Lemma _dict_dangling t i σ :
  (∀ c, ¬ is_inst σ i c) → ∃ e, _dict t i σ = (Raise e, σ).
Proof.
  intros Hno.
  unfold _dict, the_instance, the_class, bindM, get_heap, deref. simpl.
  destruct (instances σ !! i) as [o|] eqn:Ho; [|by eexists].
  destruct (Hno (inst_class o)). by exists o.
Qed.

Section fill_slot.
Context (P Q : clsid → tid → Prop).
Context (σ : heap) (c : clsid) (C : wrapped_class) (t : tid).
Hypothesis Hwf : wf_heap σ.
Hypothesis HC : classes σ !! c = Some C.
Hypothesis Hfree : _tl C !! t = None.

Lemma slot_before_fill : slot σ c t = None.
Proof. unfold slot. by rewrite HC. Qed.

Lemma wf_fill_slot : wf_heap (fill_slot σ c C t).
Proof.
  destruct Hwf as [H1 H2 H3 H4]. split.
  - intros c' t' a. rewrite slot_fill_slot; [|done]. case_decide.
    + intros [= <-]. simpl. apply lookup_lt_is_Some.
      rewrite length_app. simpl. lia.
    + intros Hs. destruct (H1 _ _ _ Hs) as [d Hd]. exists d. simpl.
      by apply lookup_app_l_Some.
  - intros c1 t1 c2 t2 a. rewrite !slot_fill_slot; [|done..].
    destruct (decide (c1 = c ∧ t1 = t)) as [[-> ->]|N1];
      destruct (decide (c2 = c ∧ t2 = t)) as [[-> ->]|N2].
    + done.
    + intros [= <-] Hs. destruct (H1 _ _ _ Hs) as [d Hd].
      apply lookup_lt_Some in Hd. lia.
    + intros Hs [= <-]. destruct (H1 _ _ _ Hs) as [d Hd].
      apply lookup_lt_Some in Hd. lia.
    + apply H2.
  - intros i o Hi. simpl in Hi. destruct (H3 _ _ Hi) as [C' HC'].
    simpl. apply lookup_lt_is_Some. rewrite length_insert.
    by eapply lookup_lt_Some.
  - intros i o name m Hi Hm. simpl in Hi.
    destruct (H4 _ _ _ _ Hi Hm) as [Hn [t' Hs]]. split; [done|].
    destruct (decide (inst_class o = c ∧ t' = t)) as [[Hc ->]|Hne].
    + rewrite Hc, slot_before_fill in Hs. done.
    + exists t'. rewrite slot_fill_slot; [|done]. by rewrite decide_False.
Qed.

Lemma evolves_fill_slot : Q c t → evolves P Q σ (fill_slot σ c C t).
Proof.
  intros HQ. split.
  - intros c' C' HC'. simpl. destruct (decide (c' = c)) as [->|Hne].
    + rewrite list_lookup_insert_eq; [|by eapply lookup_lt_Some].
      eexists. split; [done|]. simpl. split; congruence.
    + rewrite list_lookup_insert_ne; [|done]. by exists C'.
  - intros c' t' a Hs. rewrite slot_fill_slot; [|done].
    case_decide as Hd; [|done]. destruct Hd as [-> ->].
    rewrite slot_before_fill in Hs. done.
  - intros c' t' a Hn. rewrite slot_fill_slot; [|done].
    case_decide as Hd; [|congruence]. destruct Hd as [-> ->].
    intros [= <-]. done.
  - simpl. rewrite length_app. lia.
  - intros a d Ha _. simpl. by apply lookup_app_l_Some.
  - intros i o Hi. by exists o.
Qed.
End fill_slot.

(** ** Storing a method on an instance, and new objects *)

Section heap_updates.
Context (P Q : clsid → tid → Prop).

Lemma wf_set_attr σ i o t a name :
  wf_heap σ → instances σ !! i = Some o →
  slot σ (inst_class o) t = Some a →
  wf_heap (set_instance i
    {| inst_class := inst_class o;
       inst_dict := <[name := BoundMethod a name]> (inst_dict o) |} σ).2.
Proof.
  intros [H1 H2 H3 H4] Ho Hs. split; simpl; try done.
  - intros i' o' Hi'. destruct (decide (i' = i)) as [->|Hne].
    + rewrite list_lookup_insert_eq in Hi'; [|by eapply lookup_lt_Some].
      injection Hi' as <-. simpl. eauto.
    + rewrite list_lookup_insert_ne in Hi'; [|done]. eauto.
  - intros i' o' name' m Hi' Hm. destruct (decide (i' = i)) as [->|Hne].
    + rewrite list_lookup_insert_eq in Hi'; [|by eapply lookup_lt_Some].
      injection Hi' as <-. simpl in *.
      destruct (decide (name = name')) as [->|Hn].
      * rewrite lookup_insert_eq in Hm. injection Hm as <-. simpl. eauto.
      * rewrite lookup_insert_ne in Hm; [|done]. eauto.
    + rewrite list_lookup_insert_ne in Hi'; [|done]. eauto.
Qed.

Lemma evolves_set_attr σ i o m name :
  instances σ !! i = Some o → inst_dict o !! name = None →
  evolves P Q σ (set_instance i
    {| inst_class := inst_class o;
       inst_dict := <[name := m]> (inst_dict o) |} σ).2.
Proof.
  intros Ho Hfree. split; simpl.
  - eauto.
  - done.
  - intros c t a Hn Hs. unfold slot in *. simpl in *. congruence.
  - done.
  - done.
  - intros i' o' Hi'. destruct (decide (i' = i)) as [->|Hne].
    + rewrite list_lookup_insert_eq; [|by eapply lookup_lt_Some].
      eexists. split; [done|]. simpl.
      assert (o' = o) as -> by congruence.
      split; [done|]. by apply insert_subseteq.
    + rewrite list_lookup_insert_ne; [|done]. by exists o'.
Qed.

Lemma wf_new_instance σ c :
  wf_heap σ → is_Some (classes σ !! c) →
  wf_heap (new_instance {| inst_class := c; inst_dict := ∅ |} σ).2.
Proof.
  intros [H1 H2 H3 H4] HC. split; simpl; try done.
  - intros i o Hi. apply lookup_app_Some in Hi as [Hi|[_ Hi]]; [eauto|].
    apply list_lookup_singleton_Some in Hi as [_ <-]. done.
  - intros i o name m Hi Hm.
    apply lookup_app_Some in Hi as [Hi|[_ Hi]]; [eauto|].
    apply list_lookup_singleton_Some in Hi as [_ <-]. done.
Qed.

Lemma evolves_new_instance σ o : evolves P Q σ (new_instance o σ).2.
Proof.
  split; simpl.
  - eauto.
  - done.
  - intros c t a Hn Hs. unfold slot in *. simpl in *. congruence.
  - done.
  - done.
  - intros i o' Hi. exists o'. split; [|done]. by apply lookup_app_l_Some.
Qed.

Lemma slot_new_class σ C c t :
  _tl C = ∅ →
  slot (new_class C σ).2 c t = slot σ c t.
Proof.
  intros Htl. unfold slot. simpl.
  destruct (classes σ !! c) as [C'|] eqn:HC.
  - by erewrite lookup_app_l_Some.
  - apply lookup_ge_None in HC.
    destruct (decide (c = length (classes σ))) as [->|Hne].
    + rewrite lookup_app_r; [|done]. rewrite Nat.sub_diag. simpl.
      by rewrite Htl.
    + rewrite lookup_ge_None_2; [done|]. rewrite length_app. simpl. lia.
Qed.

Lemma wf_new_class σ C : wf_heap σ → _tl C = ∅ → wf_heap (new_class C σ).2.
Proof.
  intros [H1 H2 H3 H4] Htl. split.
  - intros c t a. rewrite slot_new_class; [|done]. apply H1.
  - intros c t c' t' a. rewrite !slot_new_class; [|done..]. apply H2.
  - intros i o Hi. destruct (H3 _ _ Hi) as [C' HC']. exists C'. simpl.
    by apply lookup_app_l_Some.
  - intros i o name m Hi Hm. destruct (H4 _ _ _ _ Hi Hm) as [? [t Hs]].
    split; [done|]. exists t. by rewrite slot_new_class.
Qed.

Lemma evolves_new_class σ C : _tl C = ∅ → evolves P Q σ (new_class C σ).2.
Proof.
  intros Htl. split.
  - intros c C' HC'. exists C'. split; [|done]. simpl.
    by apply lookup_app_l_Some.
  - intros c t a. by rewrite slot_new_class.
  - intros c t a Hn. rewrite slot_new_class; [|done]. congruence.
  - done.
  - done.
  - intros i o Hi. by exists o.
Qed.
End heap_updates.

(** ** Every function keeps the heap well formed

    Thread [t] fills only its own slots ([Q c t] for every [c]); what a
    function may write is stated by its hypothesis on [P]. *)

Section functions.
Context (P Q : clsid → tid → Prop) (t : tid).
Hypothesis HQ : ∀ c, Q c t.

Lemma keeps__dict i σ :
  wf_heap σ →
  keeps P Q (_dict t i) σ
    (λ a σ', ∃ c, is_inst σ i c ∧ slot σ' c t = Some a
                  ∧ instances σ' = instances σ).
Proof.
  intros Hwf.
  destruct (instances σ !! i) as [o|] eqn:Ho.
  - destruct (wf_inst_class _ Hwf _ _ Ho) as [C HC].
    destruct (_tl C !! t) as [a|] eqn:Ha.
    + unfold keeps. rewrite (_dict_hit _ _ _ _ _ _ Ho HC Ha). simpl.
      split_and!; [done|apply evolves_refl|]. intros ? [= <-].
      exists (inst_class o). split_and!; [by exists o| |done].
      apply slot_Some. eauto.
    + unfold keeps. rewrite (_dict_miss _ _ _ _ _ Ho HC Ha). simpl.
      split_and!; [by apply wf_fill_slot|by apply evolves_fill_slot|].
      intros ? [= <-]. exists (inst_class o).
      split_and!; [by exists o| |done].
      rewrite slot_fill_slot; [|done]. by rewrite decide_True.
  - destruct (_dict_dangling t i σ) as [e He].
    { intros c (o & Ho' & _). congruence. }
    unfold keeps. rewrite He. simpl.
    split_and!; [done|apply evolves_refl|done].
Qed.

Lemma keeps___getattr__ i name σ :
  wf_heap σ →
  (∀ o, instances σ !! i = Some o → inst_dict o !! name = None) →
  keeps P Q (__getattr__ t i name) σ
    (λ m σ', ∃ o', instances σ' !! i = Some o'
                   ∧ inst_dict o' !! name = Some m
                   ∧ slot σ' (inst_class o') t = Some (im_self m)
                   ∧ is_inst σ i (inst_class o')).
Proof.
  intros Hwf Hfree. unfold __getattr__.
  eapply keeps_bind; [by apply keeps__dict|].
  intros a σ1 Hwf1 Hev1 (c & (o & Ho & Hc) & Hs & Hinst).
  eapply keeps_bind; [by apply keeps_the_instance|].
  intros o1 σ2 Hwf2 Hev2 [-> Ho1].
  assert (o1 = o) as -> by congruence.
  eapply keeps_bind; [by apply keeps_the_class|].
  intros C σ2 Hwf2' Hev2' [-> HC].
  case_bool_decide; [|by apply keeps_raise].
  eapply keeps_bind with (Φ := λ _ σ', σ' = _).
  { split_and!; [|by apply evolves_set_attr; auto|done].
    eapply wf_set_attr; [done..|]. by rewrite Hc. }
  intros _ σ3 Hwf3 Hev3 ->. apply keeps_ret; [done|].
  eexists. simpl. rewrite list_lookup_insert_eq; [|by eapply lookup_lt_Some].
  split; [done|]. simpl. rewrite lookup_insert_eq. split; [done|].
  split; [|by exists o].
  unfold slot in *. simpl. by rewrite Hc.
Qed.

Lemma keeps_getattr i name σ :
  wf_heap σ →
  keeps P Q (getattr t i name) σ
    (λ m σ', ∃ o', instances σ' !! i = Some o'
                   ∧ inst_dict o' !! name = Some m
                   ∧ is_inst σ i (inst_class o')).
Proof.
  intros Hwf. unfold getattr.
  eapply keeps_bind; [by apply keeps_the_instance|].
  intros o σ1 Hwf1 Hev1 [-> Ho].
  destruct (inst_dict o !! name) as [m|] eqn:Hm.
  - apply keeps_ret; [done|]. exists o. split_and!; [done..|by exists o].
  - eapply keeps_mono; [apply keeps___getattr__; [done|]|].
    + intros o' Ho'. congruence.
    + intros m σ' _ _ (o' & ? & ? & _ & ?). eauto.
Qed.
End functions.

Section methods.
Context (P Q : clsid → tid → Prop) (t : tid).
Hypothesis HQ : ∀ c, Q c t.

Lemma keeps_tl_dict_ c σ :
  wf_heap σ →
  keeps P Q (tl_dict_ t c) σ (λ a σ', σ' = σ ∧ slot σ c t = Some a).
Proof.
  intros Hwf. unfold tl_dict_.
  eapply keeps_bind; [by apply keeps_the_class|].
  intros C σ1 Hwf1 _ [-> HC].
  destruct (_tl C !! t) as [a|] eqn:Ha; [|by apply keeps_raise].
  apply keeps_ret; [done|]. split; [done|]. apply slot_Some. eauto.
Qed.

Lemma keeps_write d (f : pydict → pydict) σ c0 t0 :
  wf_heap σ → P c0 t0 → slot σ c0 t0 = Some d →
  keeps P Q (let* m := the_mapping d in set_mapping d (f m)) σ
    (λ _ _, True).
Proof.
  intros Hwf HP Hs.
  eapply keeps_bind; [by apply keeps_the_mapping|].
  intros m σ1 Hwf1 _ [-> Hm].
  eapply keeps_mono; [by eapply keeps_set_mapping|done].
Qed.

Lemma keeps_dict_update d args kw σ c0 t0 :
  wf_heap σ → P c0 t0 → slot σ c0 t0 = Some d →
  keeps P Q (dict_update t d args kw) σ (λ _ _, True).
Proof.
  intros Hwf HP Hs. unfold dict_update.
  destruct args as [|[src|l|j] [|? ?]];
    try (by apply keeps_raise); try (by eapply keeps_write).
  eapply keeps_bind; [by apply keeps_getattr|].
  intros keys σ1 Hwf1 Hev1 _.
  eapply keeps_bind; [by apply keeps_the_mapping|].
  intros src σ2 Hwf2 _ [-> Hsrc].
  case_bool_decide; [|by apply keeps_raise].
  eapply keeps_write; [done..|]. by apply (ev_slot _ _ _ _ Hev1).
Qed.

Lemma keeps_apply_method d c σ c0 t0 :
  wf_heap σ → P c0 t0 → slot σ c0 t0 = Some d →
  keeps P Q (apply_method t d c) σ (λ _ _, True).
Proof.
  intros Hwf HP Hs. unfold apply_method. destruct c.
  - eapply keeps_bind; [by apply keeps_the_mapping|].
    intros m σ1 Hwf1 _ [-> Hm]. by apply keeps_ret.
  - eapply keeps_bind; [by apply keeps_the_mapping|].
    intros m σ1 Hwf1 _ [-> Hm].
    destruct (m !! k); [|by apply keeps_raise].
    eapply keeps_bind; [by eapply keeps_set_mapping|].
    intros _ σ2 Hwf2 _ _. by apply keeps_ret.
  - eapply keeps_bind; [by apply keeps_the_mapping|].
    intros m σ1 Hwf1 _ [-> Hm]. by apply keeps_ret.
  - eapply keeps_bind; [by eapply keeps_set_mapping|].
    intros _ σ2 Hwf2 _ _. by apply keeps_ret.
  - eapply keeps_bind; [by apply keeps_the_mapping|].
    intros m σ1 Hwf1 _ [-> Hm]. by apply keeps_ret.
  - eapply keeps_bind; [by eapply keeps_dict_update|].
    intros _ σ2 Hwf2 _ _. by apply keeps_ret.
Qed.

(** A forwarded call may reach the mapping of any thread: the stored
    method decides. *)
Lemma keeps_call_forwarded i c σ :
  wf_heap σ → (∀ c0 t0, is_inst σ i c0 → P c0 t0) →
  keeps P Q (call_forwarded t i c) σ (λ _ _, True).
Proof.
  intros Hwf HP. unfold call_forwarded.
  eapply keeps_bind; [by apply keeps_getattr|].
  intros m σ1 Hwf1 Hev1 (o' & Ho' & Hm & Hi).
  destruct (wf_inst_dict _ Hwf1 _ _ _ _ Ho' Hm) as [_ [t0 Hs]].
  eapply keeps_apply_method; [done| |done]. by apply HP.
Qed.
End methods.

Section wrapper.
Context (P Q : clsid → tid → Prop) (t : tid).
Hypothesis HQ : ∀ c, Q c t.

Lemma keeps_isinstance_of_self x self σ :
  wf_heap σ →
  keeps P Q (isinstance_of_self x self) σ (λ _ σ', σ' = σ).
Proof.
  intros Hwf. unfold isinstance_of_self.
  eapply keeps_bind; [by apply keeps_the_instance|].
  intros o1 σ1 Hwf1 _ [-> _].
  eapply keeps_bind; [by apply keeps_the_instance|].
  intros o2 σ2 Hwf2 _ [-> _]. by apply keeps_ret.
Qed.

Lemma keeps___init__ self args kw σ :
  wf_heap σ → (∀ c, is_inst σ self c → P c t) →
  keeps P Q (__init__ t self args kw) σ (λ _ _, True).
Proof.
  intros Hwf HP. unfold __init__.
  eapply keeps_bind with (Φ := λ _ σ', σ' = σ).
  { destruct args as [|[?|?|x] ?]; try (by apply keeps_ret).
    by apply keeps_isinstance_of_self. }
  intros same σ1 Hwf1 _ ->.
  destruct same.
  - eapply keeps_bind; [by apply keeps__dict|].
    intros d σ2 Hwf2 _ (c & Hi & Hs & _).
    eapply keeps_dict_update; eauto.
  - eapply keeps_bind; [by apply keeps__dict|].
    intros d σ2 Hwf2 _ (c & Hi & Hs & _).
    eapply keeps_dict_update; eauto.
Qed.

Lemma keeps_construct c args kw σ :
  wf_heap σ → P c t →
  keeps P Q (construct t c args kw) σ (λ i σ', is_inst σ' i c).
Proof.
  intros Hwf HP. unfold construct.
  eapply keeps_bind; [by apply keeps_the_class|].
  intros C σ1 Hwf1 _ [-> HC].
  eapply keeps_bind with (Φ := λ i σ', is_inst σ' i c
    ∧ ∀ c', is_inst σ' i c' → c' = c).
  { split_and!; [by apply wf_new_instance|by apply evolves_new_instance|].
    intros i [= <-]. simpl.
    assert (Hl : (instances σ ++ [{| inst_class := c; inst_dict := ∅ |}])%list
                   !! length (instances σ)
                 = Some {| inst_class := c; inst_dict := ∅ |}).
    { rewrite lookup_app_r; [|done]. by rewrite Nat.sub_diag. }
    split.
    - eexists. split; [exact Hl|done].
    - intros c' (o & Ho & Hc). simpl in Ho. rewrite Hl in Ho.
      by injection Ho as <-. }
  intros self σ2 Hwf2 _ [Hi Huniq].
  case_bool_decide; [by apply keeps_raise|].
  eapply keeps_bind.
  { apply keeps___init__; [done|]. intros c' Hc'.
    by rewrite (Huniq _ Hc'). }
  intros _ σ3 Hwf3 Hev2 _. apply keeps_ret; [done|].
  destruct Hi as (o & Ho & Hc).
  destruct (ev_instances _ _ _ _ Hev2 _ _ Ho) as (o' & Ho' & Hc' & _).
  exists o'. split; [done|congruence].
Qed.

Lemma keeps___setitem__ i k v σ :
  wf_heap σ → (∀ c, is_inst σ i c → P c t) →
  keeps P Q (__setitem__ t i k v) σ (λ _ _, True).
Proof.
  intros Hwf HP. unfold __setitem__.
  eapply keeps_bind; [by apply keeps__dict|].
  intros d σ1 Hwf1 _ (c & Hi & Hs & _).
  eapply keeps_write; eauto.
Qed.

Lemma keeps___iter__ i σ :
  wf_heap σ → keeps P Q (__iter__ t i) σ (λ _ _, True).
Proof.
  intros Hwf. unfold __iter__.
  eapply keeps_bind; [by apply keeps__dict|].
  intros d σ1 Hwf1 _ _.
  eapply keeps_bind; [by apply keeps_the_mapping|].
  intros m σ2 Hwf2 _ [-> _]. by apply keeps_ret.
Qed.

Lemma keeps___len__ i σ :
  wf_heap σ → keeps P Q (__len__ t i) σ (λ _ _, True).
Proof.
  intros Hwf. unfold __len__.
  eapply keeps_bind; [by apply keeps__dict|].
  intros d σ1 Hwf1 _ _.
  eapply keeps_bind; [by apply keeps_the_mapping|].
  intros m σ2 Hwf2 _ [-> _]. by apply keeps_ret.
Qed.

Lemma keeps___repr__ i σ :
  wf_heap σ → keeps P Q (__repr__ t i) σ (λ _ _, True).
Proof.
  intros Hwf. unfold __repr__.
  eapply keeps_bind; [by apply keeps_the_instance|].
  intros o σ1 Hwf1 _ [-> _].
  eapply keeps_bind; [by apply keeps_the_class|].
  intros C σ2 Hwf2 _ [-> _].
  eapply keeps_bind; [by apply keeps__dict|].
  intros d σ3 Hwf3 _ _.
  eapply keeps_bind; [by apply keeps_the_mapping|].
  intros m σ4 Hwf4 _ [-> _]. by apply keeps_ret.
Qed.

Lemma keeps_class_of o σ :
  wf_heap σ → keeps P Q (class_of o) σ (λ _ σ', σ' = σ).
Proof.
  intros Hwf. destruct o as [dc m|i]; simpl; [by apply keeps_ret|].
  eapply keeps_bind; [by apply keeps_the_instance|].
  intros o σ1 Hwf1 _ [-> _]. by apply keeps_ret.
Qed.

Lemma keeps___eq__ i other σ :
  wf_heap σ → keeps P Q (__eq__ i other) σ (λ _ σ', σ' = σ).
Proof.
  intros Hwf. unfold __eq__.
  eapply keeps_bind; [by apply keeps_class_of|].
  intros a σ1 Hwf1 _ ->.
  eapply keeps_bind; [by apply keeps_class_of|].
  intros b σ2 Hwf2 _ ->. by apply keeps_ret.
Qed.

Lemma keeps_wrap_dict dc u σ :
  wf_heap σ → keeps P Q (wrap_dict dc u) σ (λ _ _, True).
Proof.
  intros Hwf. unfold wrap_dict.
  split_and!; [by apply wf_new_class|by apply evolves_new_class|done].
Qed.
End wrapper.

Section scoped.
Context (P Q : clsid → tid → Prop) (t : tid).
Hypothesis HQ : ∀ c, Q c t.

Lemma keeps_context_copy lg σ :
  wf_heap σ → keeps P Q (context_copy t lg) σ (λ _ _, True).
Proof.
  intros Hwf. unfold context_copy.
  destruct (_context lg) as [dc m|i]; [by apply keeps_ret|].
  eapply keeps_bind; [by apply keeps_getattr|].
  intros m σ1 Hwf1 _ _.
  eapply keeps_mono; [by apply keeps_the_mapping|done].
Qed.

Lemma keeps_bind_logger lg kw σ :
  wf_heap σ → (∀ c, _current_context_class lg = Wrapped c → P c t) →
  keeps P Q (bind t lg kw) σ (λ _ _, True).
Proof.
  intros Hwf HP. unfold bind.
  destruct (_current_context_class lg) as [dc|c].
  - destruct (_context lg) as [dc' m|j]; [by apply keeps_ret|].
    eapply keeps_bind; [by apply keeps_getattr|].
    intros keys σ1 Hwf1 _ _.
    eapply keeps_bind; [by apply keeps_the_mapping|].
    intros src σ2 Hwf2 _ [-> _].
    case_bool_decide; [by apply keeps_ret|by apply keeps_raise].
  - eapply keeps_bind; [apply keeps_construct; auto|].
    intros i σ1 Hwf1 _ _. by apply keeps_ret.
Qed.

Lemma keeps_tmp_bind_enter lg kw σ :
  wf_heap σ → (∀ c, _current_context_class lg = Wrapped c → P c t) →
  keeps P Q (tmp_bind_enter t lg kw) σ (λ _ _, True).
Proof.
  intros Hwf HP. unfold tmp_bind_enter.
  case_bool_decide; [by apply keeps_raise|].
  destruct (negb _); [by apply keeps_raise|].
  eapply keeps_bind; [by apply keeps_context_copy|].
  intros saved σ1 Hwf1 _ _.
  eapply keeps_bind; [by apply keeps_bind_logger|].
  intros tmp σ2 Hwf2 _ _. by apply keeps_ret.
Qed.

Lemma keeps_tmp_bind_resume fr σ :
  wf_heap σ →
  (∀ c, _current_context_class (f_logger fr) = Wrapped c → P c t) →
  keeps P Q (tmp_bind_resume t fr) σ (λ _ _, True).
Proof.
  intros Hwf HP. unfold tmp_bind_resume.
  destruct (_current_context_class _) as [dc|c]; [by apply keeps_raise|].
  eapply keeps_bind; [by apply keeps_tl_dict_|].
  intros d σ1 Hwf1 _ [-> Hs].
  eapply keeps_bind; [eapply keeps_set_mapping; eauto|].
  intros _ σ2 Hwf2 Hev2 _.
  eapply keeps_bind; [by apply keeps_tl_dict_|].
  intros d' σ3 Hwf3 _ [-> Hs'].
  eapply keeps_dict_update; eauto.
Qed.
End scoped.

(** ** Programs *)

Lemma keeps_run_op (P Q : clsid → tid → Prop) t o σ :
  (∀ c, Q c t) → wf_heap σ → footprint P t σ o →
  keeps P Q (run_op t o) σ (λ _ _, True).
Proof.
  intros HQ Hwf Hfp.
  assert (Hdrop : ∀ A (m : M A) Ψ,
    keeps P Q m σ Ψ → keeps P Q (m ;;; ret tt) σ (λ _ _, True)).
  { intros A m Ψ Hm. eapply keeps_bind; [exact Hm|].
    intros. by apply keeps_ret. }
  destruct o; simpl in *.
  - eapply Hdrop. by apply keeps_wrap_dict.
  - eapply Hdrop. by apply keeps_construct.
  - by apply keeps___setitem__.
  - eapply Hdrop. by apply keeps___iter__.
  - eapply Hdrop. by apply keeps___len__.
  - eapply Hdrop. by apply keeps___repr__.
  - eapply Hdrop. by apply keeps___eq__.
  - eapply Hdrop. by apply keeps_getattr.
  - eapply Hdrop. apply keeps_call_forwarded; auto.
  - eapply Hdrop. by apply keeps_bind_logger.
  - eapply Hdrop. by apply keeps_tmp_bind_enter.
  - by apply keeps_tmp_bind_resume.
  - by apply keeps_raise.
Qed.

Lemma keeps_run_ops p σ :
  wf_heap σ → keeps anything anything (run_ops p) σ (λ _ _, True).
Proof.
  revert σ. induction p as [|[t o] p IH]; intros σ Hwf; simpl.
  - by apply keeps_ret.
  - eapply keeps_bind.
    + apply keeps_run_op; [done..|]. by destruct o.
    + intros _ σ1 Hwf1 _ _. by apply IH.
Qed.

Lemma wf_empty_heap : wf_heap empty_heap.
Proof. split; unfold slot; simpl; intros; simplify_eq. Qed.

Lemma wf_run_ops p σ : wf_heap σ → wf_heap (run_ops p σ).2.
Proof. intros Hwf. by destruct (keeps_run_ops p σ Hwf). Qed.

Lemma evolves_run_ops p σ :
  wf_heap σ → evolves anything anything σ (run_ops p σ).2.
Proof. intros Hwf. by destruct (keeps_run_ops p σ Hwf) as (_ & ? & _). Qed.

(** ** Running the code step by step *)

Lemma bindM_Return {A B} (m : M A) (k : A → M B) σ x σ' :
  m σ = (Return x, σ') → bindM m k σ = k x σ'.
Proof. intros H. unfold bindM. by rewrite H. Qed.

Lemma bindM_Raise {A B} (m : M A) (k : A → M B) σ e σ' :
  m σ = (Raise e, σ') → bindM m k σ = (Raise e, σ').
Proof. intros H. unfold bindM. by rewrite H. Qed.

Lemma the_instance_Some σ i o :
  instances σ !! i = Some o → the_instance i σ = (Return o, σ).
Proof.
  intros H. unfold the_instance, bindM, get_heap, deref. simpl. by rewrite H.
Qed.

Lemma the_class_Some σ c C :
  classes σ !! c = Some C → the_class c σ = (Return C, σ).
Proof.
  intros H. unfold the_class, bindM, get_heap, deref. simpl. by rewrite H.
Qed.

Lemma the_mapping_Some σ a d :
  mappings σ !! a = Some d → the_mapping a σ = (Return d, σ).
Proof.
  intros H. unfold the_mapping, bindM, get_heap, deref. simpl. by rewrite H.
Qed.

Lemma tl_dict__Some σ c t a :
  slot σ c t = Some a → tl_dict_ t c σ = (Return a, σ).
Proof.
  intros (C & HC & Ha)%slot_Some. unfold tl_dict_.
  rewrite (bindM_Return _ _ _ _ _ (the_class_Some _ _ _ HC)). by rewrite Ha.
Qed.

Lemma _dict_slot σ t i c a :
  is_inst σ i c → slot σ c t = Some a → _dict t i σ = (Return a, σ).
Proof.
  intros (o & Ho & <-) (C & HC & Ha)%slot_Some. by eapply _dict_hit.
Qed.

Lemma getattr_cached σ t i o name m :
  instances σ !! i = Some o → inst_dict o !! name = Some m →
  getattr t i name σ = (Return m, σ).
Proof.
  intros Ho Hm. unfold getattr.
  rewrite (bindM_Return _ _ _ _ _ (the_instance_Some _ _ _ Ho)).
  by rewrite Hm.
Qed.

Lemma dict_attrs_mapping_attrs dc name :
  name ∈ dict_attrs → name ∈ mapping_attrs dc.
Proof. intros H. unfold mapping_attrs. apply elem_of_app. by left. Qed.

Lemma getattr_miss σ t i o name a :
  instances σ !! i = Some o → inst_dict o !! name = None →
  name ∈ dict_attrs → slot σ (inst_class o) t = Some a →
  getattr t i name σ
  = (Return (BoundMethod a name), with_attr σ i o name (BoundMethod a name)).
Proof.
  intros Ho Hm Hname Hs. unfold getattr.
  rewrite (bindM_Return _ _ _ _ _ (the_instance_Some _ _ _ Ho)).
  rewrite Hm. unfold __getattr__.
  erewrite bindM_Return; [|eapply _dict_slot; [by exists o|done]].
  rewrite (bindM_Return _ _ _ _ _ (the_instance_Some _ _ _ Ho)).
  apply slot_Some in Hs as (C & HC & _).
  rewrite (bindM_Return _ _ _ _ _ (the_class_Some _ _ _ HC)).
  rewrite bool_decide_eq_true_2; [done|].
  by apply dict_attrs_mapping_attrs.
Qed.

Lemma class_of_inst σ i o :
  instances σ !! i = Some o →
  class_of (OInst i) σ = (Return (Wrapped (inst_class o)), σ).
Proof.
  intros Ho. simpl.
  by rewrite (bindM_Return _ _ _ _ _ (the_instance_Some _ _ _ Ho)).
Qed.

(** * The specification, statement by statement *)

(** ** Equality of context instances *)

(** C7.  [==] on context instances looks at the classes only: two
    instances of one context type are equal whatever the mappings hold,
    instances of two context types are unequal, a context instance is
    unequal to a plain mapping, and [!=] always answers the negation of
    [==]. *)
Theorem eq_compares_classes_only σ i j oi oj :
  instances σ !! i = Some oi → instances σ !! j = Some oj →
  (inst_class oi = inst_class oj →
     ∀ ms, __eq__ i (OInst j) (Heap (classes σ) ms (instances σ))
           = (Return true, Heap (classes σ) ms (instances σ)))
  ∧ (inst_class oi ≠ inst_class oj →
     ∀ ms, __eq__ i (OInst j) (Heap (classes σ) ms (instances σ))
           = (Return false, Heap (classes σ) ms (instances σ)))
  ∧ (∀ dc m, __eq__ i (OPlain dc m) σ = (Return false, σ))
  ∧ (∀ other b, __eq__ i other σ = (Return b, σ) →
       __ne__ i other σ = (Return (negb b), σ)).
Proof.
  intros Hi Hj. split_and!.
  - intros Hc ms. unfold __eq__.
    rewrite (bindM_Return _ _ _ _ _ (class_of_inst (Heap _ ms _) _ _ Hi)).
    rewrite (bindM_Return _ _ _ _ _ (class_of_inst (Heap _ ms _) _ _ Hj)).
    unfold ret. by rewrite Hc, bool_decide_eq_true_2.
  - intros Hc ms. unfold __eq__.
    rewrite (bindM_Return _ _ _ _ _ (class_of_inst (Heap _ ms _) _ _ Hi)).
    rewrite (bindM_Return _ _ _ _ _ (class_of_inst (Heap _ ms _) _ _ Hj)).
    unfold ret. rewrite bool_decide_eq_false_2; [done|]. congruence.
  - intros dc m. unfold __eq__.
    by rewrite (bindM_Return _ _ _ _ _ (class_of_inst _ _ _ Hi)).
  - intros other b Heq. unfold __ne__.
    by rewrite (bindM_Return _ _ _ _ _ Heq).
Qed.

Lemma wf_heap_single : wf_heap heap_single.
Proof. apply wf_run_ops, wf_empty_heap. Qed.

Lemma wf_heap_shared : wf_heap heap_shared.
Proof. apply wf_run_ops, wf_empty_heap. Qed.

(** ** The scoped binder: precondition *)

(** C3.  When the logger's context class is not a class made by
    [wrap_dict], entering [tmp_bind] with keywords that the call accepts
    (none of them named [logger]) raises at once (the code raises
    [ValueError]): no snapshot is taken, the block is not run, and the heap
    is the one before the call. *)
Theorem tmp_bind_rejects_unwrapped_class {A} t logger tmp_values
    (block : bound_logger → M A) σ :
  issubclass_wrapper (_current_context_class logger) = false →
  "logger" ∉ dom tmp_values →
  tmp_bind_enter t logger tmp_values σ = (Raise ValueError, σ)
  ∧ with_tmp_bind t logger tmp_values block σ = (Raise ValueError, σ).
Proof.
  intros Hc Hk.
  assert (He : tmp_bind_enter t logger tmp_values σ = (Raise ValueError, σ)).
  { unfold tmp_bind_enter. rewrite bool_decide_eq_false_2; [|done].
    by rewrite Hc. }
  split; [done|]. unfold with_tmp_bind. by rewrite (bindM_Raise _ _ _ _ _ He).
Qed.

Lemma tmp_bind_rejects_unwrapped_class_witness :
  issubclass_wrapper (_current_context_class plain_logger) = false
  ∧ ("logger" ∉ dom kw_b2)
  ∧ with_tmp_bind 0 plain_logger kw_b2 (λ _, ret tt) heap_single
    = (Raise ValueError, heap_single).
Proof.
  assert (Hk : "logger" ∉ dom kw_b2) by (vm_compute; intros H; inversion H).
  split; [reflexivity|]. split; [exact Hk|].
  apply (tmp_bind_rejects_unwrapped_class 0 plain_logger kw_b2
           (λ _, ret tt) heap_single); [reflexivity|exact Hk].
Defined.

(** ** The scoped binder: a block that raises *)

(** Whatever the block raises leaves [with tmp_bind(...)] unchanged, and
    so does the heap: nothing runs after the block. *)
Lemma with_tmp_bind_block_raises {A} t logger tmp_values
    (block : bound_logger → M A) σ fr tmp σ1 e σ2 :
  tmp_bind_enter t logger tmp_values σ = (Return (fr, tmp), σ1) →
  block tmp σ1 = (Raise e, σ2) →
  with_tmp_bind t logger tmp_values block σ = (Raise e, σ2).
Proof.
  intros He Hb. unfold with_tmp_bind.
  rewrite (bindM_Return _ _ _ _ _ He). simpl. by rewrite Hb.
Qed.

(** C1.  The code at the failing input: thread 0 holds [{a:1}], enters
    [tmp_bind(logger, b=2)] and the block raises.  The exception reaches
    the caller, but the mapping is left at [{a:1, b:2}]: the two statements
    after the [yield] were not run. *)
Theorem tmp_bind_release_skipped_when_block_raises :
  context heap_single 0 0 = Some ctx_a1
  ∧ (with_tmp_bind 0 the_logger kw_b2
       (λ _, raise (UserError 7) : M unit) heap_single).1
    = Raise (UserError 7)
  ∧ context (with_tmp_bind 0 the_logger kw_b2
               (λ _, raise (UserError 7) : M unit) heap_single).2 0 0
    = Some (kw_b2 ∪ ctx_a1)
  ∧ kw_b2 ∪ ctx_a1 ≠ ctx_a1.
Proof.
  split_and!; try (vm_compute; reflexivity).
  intros H. apply (f_equal (λ m : pydict, m !! "b")) in H.
  vm_compute in H. discriminate H.
Qed.

(** ** The scoped binder: a context handle used by two threads *)

(** C2.  The code at the failing input: one logger object is used by two
    threads.  Thread 0's context is exactly [{a:1}] and
    [tmp_bind(logger, b=2)] yields a logger while it is [{a:1, b:2}]; but
    the logger's context instance stored [copy] when thread 1 first took
    [logger._context.copy()], so the snapshot is thread 1's [{z:9}], and
    after a normal exit thread 0 is left with [{z:9}], not [{a:1}].  The
    restore itself addresses the calling thread's mapping directly. *)
Lemma tmp_bind_round_trip_fails_with_stored_copy :
  wf_heap heap_shared
  ∧ is_inst heap_shared 0 0
  ∧ context heap_shared 0 0 = Some ctx_a1
  ∧ (∃ fr tmp, (tmp_bind_enter 0 the_logger kw_b2 heap_shared).1
               = Return (fr, tmp)
               ∧ _current_context_class tmp = Wrapped 0)
  ∧ context (tmp_bind_enter 0 the_logger kw_b2 heap_shared).2 0 0
    = Some (kw_b2 ∪ ctx_a1)
  ∧ (with_tmp_bind 0 the_logger kw_b2 (λ _, ret tt) heap_shared).1
    = Return tt
  ∧ context (with_tmp_bind 0 the_logger kw_b2 (λ _, ret tt) heap_shared).2
      0 0 = Some ctx_z9
  ∧ ctx_z9 ≠ ctx_a1.
Proof.
  split_and!; try (vm_compute; reflexivity).
  - apply wf_heap_shared.
  - eexists. split; vm_compute; reflexivity.
  - do 2 eexists. split; vm_compute; reflexivity.
  - intros H. apply (f_equal (λ m : pydict, m !! "a")) in H.
    vm_compute in H. discriminate H.
Qed.

(** ** Construction *)

(** A keyword named [self] collides with the first parameter of
    [__init__]: the instance made by [object.__new__] is dropped. *)
Lemma construct_raises_on_self σ t c C args kw :
  classes σ !! c = Some C → "self" ∈ dom kw →
  construct t c args kw σ = (Raise TypeError, with_new_instance σ c).
Proof.
  intros HC Hkw. unfold construct.
  rewrite (bindM_Return _ _ _ _ _ (the_class_Some _ _ _ HC)).
  unfold bindM at 1. simpl. by rewrite bool_decide_eq_true_2.
Qed.

Section construction.
Context (σ : heap) (t : tid) (c : clsid) (a : addr) (m0 : pydict).
Hypothesis Hslot : slot σ c t = Some a.
Hypothesis Hmap : mappings σ !! a = Some m0.

Let self := length (instances σ).
Let σ0 := with_new_instance σ c.

Lemma self_is_inst : is_inst σ0 self c.
Proof.
  exists {| inst_class := c; inst_dict := ∅ |}. split; [|done].
  unfold σ0, self. simpl.
  rewrite lookup_app_r; [|done]. by rewrite Nat.sub_diag.
Qed.

Lemma old_is_inst j c' : is_inst σ j c' → is_inst σ0 j c'.
Proof.
  intros (o & Ho & Hc). exists o. split; [|done].
  unfold σ0. simpl. by apply lookup_app_l_Some.
Qed.

Lemma construct_unfold args kw :
  "self" ∉ dom kw →
  construct t c args kw σ = (__init__ t self args kw ;;; ret self) σ0.
Proof.
  intros Hkw. apply slot_Some in Hslot as (C & HC & _). unfold construct.
  rewrite (bindM_Return _ _ _ _ _ (the_class_Some _ _ _ HC)).
  unfold bindM at 1. simpl. by rewrite bool_decide_eq_false_2.
Qed.

Lemma isinstance_of_self_eval σ' x s cx cs :
  is_inst σ' x cx → is_inst σ' s cs →
  isinstance_of_self x s σ' = (Return (bool_decide (cx = cs)), σ').
Proof.
  intros (ox & Hx & <-) (os & Hs & <-). unfold isinstance_of_self.
  rewrite (bindM_Return _ _ _ _ _ (the_instance_Some _ _ _ Hx)).
  by rewrite (bindM_Return _ _ _ _ _ (the_instance_Some _ _ _ Hs)).
Qed.

Lemma __init___same_type j rest kw :
  is_inst σ j c →
  __init__ t self (AInst j :: rest) kw σ0 = dict_update t a [] kw σ0.
Proof.
  intros Hj. unfold __init__.
  erewrite bindM_Return;
    [|by eapply isinstance_of_self_eval; [apply old_is_inst|apply self_is_inst]].
  rewrite bool_decide_eq_true_2; [|done].
  erewrite bindM_Return; [done|].
  eapply _dict_slot; [apply self_is_inst|done].
Qed.

Lemma __init___forward args kw :
  match args with
  | AInst j :: _ => ∃ c', is_inst σ j c' ∧ c' ≠ c
  | _ => True
  end →
  __init__ t self args kw σ0 = dict_update t a args kw σ0.
Proof.
  intros Hargs. unfold __init__.
  assert (Hd : _dict t self σ0 = (Return a, σ0))
    by (eapply _dict_slot; [apply self_is_inst|done]).
  destruct args as [|[src|l|j] rest].
  - erewrite bindM_Return; [|reflexivity]. cbv beta iota.
    by erewrite bindM_Return.
  - erewrite bindM_Return; [|reflexivity]. cbv beta iota.
    by erewrite bindM_Return.
  - erewrite bindM_Return; [|reflexivity]. cbv beta iota.
    by erewrite bindM_Return.
  - destruct Hargs as (c' & Hj & Hne).
    erewrite bindM_Return;
      [|by eapply isinstance_of_self_eval;
           [apply old_is_inst|apply self_is_inst]].
    rewrite bool_decide_eq_false_2; [|done]. by erewrite bindM_Return.
Qed.

Lemma dict_update_nil σ' kw :
  mappings σ' !! a = Some m0 →
  dict_update t a [] kw σ' = (Return tt, (set_mapping a (kw ∪ m0) σ').2).
Proof.
  intros Hm. simpl.
  by rewrite (bindM_Return _ _ _ _ _ (the_mapping_Some _ _ _ Hm)).
Qed.

Lemma dict_update_map σ' src kw :
  mappings σ' !! a = Some m0 →
  dict_update t a [AMap src] kw σ'
  = (Return tt, (set_mapping a (kw ∪ (src ∪ m0)) σ').2).
Proof.
  intros Hm. simpl.
  by rewrite (bindM_Return _ _ _ _ _ (the_mapping_Some _ _ _ Hm)).
Qed.

Lemma context_set_mapping σ' d :
  slot σ' c t = Some a → is_Some (mappings σ' !! a) →
  context (set_mapping a d σ').2 c t = Some d.
Proof.
  intros Hs Hm. unfold context.
  change (slot (set_mapping a d σ').2 c t) with (slot σ' c t).
  rewrite Hs. simpl. apply list_lookup_insert_eq. by apply lookup_lt_is_Some.
Qed.

(** [update] never removes a key, whether it returns or raises. *)
Lemma dict_update_keeps_keys σ' args kw :
  wf_heap σ' → mappings σ' !! a = Some m0 →
  ∃ m', mappings (dict_update t a args kw σ').2 !! a = Some m'
        ∧ dom m0 ⊆ dom m'.
Proof.
  intros Hwf Hm.
  assert (Hlt : a < length (mappings σ')) by by eapply lookup_lt_Some.
  destruct args as [|[src|l|j] [|? ?]]; simpl;
    try (exists m0; split; [done|set_solver]).
  - rewrite (bindM_Return _ _ _ _ _ (the_mapping_Some _ _ _ Hm)). simpl.
    eexists. rewrite list_lookup_insert_eq; [|done]. split; [done|].
    rewrite dom_union_L. set_solver.
  - rewrite (bindM_Return _ _ _ _ _ (the_mapping_Some _ _ _ Hm)). simpl.
    eexists. rewrite list_lookup_insert_eq; [|done]. split; [done|].
    rewrite !dom_union_L. set_solver.
  - rewrite (bindM_Return _ _ _ _ _ (the_mapping_Some _ _ _ Hm)). simpl.
    eexists. rewrite list_lookup_insert_eq; [|done]. split; [done|].
    rewrite dom_union_L.
    assert (Hf : ∀ (l : list (string * Z)) (m : pydict),
      dom m ⊆ dom (foldl (λ acc kv, <[kv.1 := kv.2]> acc) m l)).
    { clear. intros l. induction l as [|kv l IH]; intros m; simpl; [done|].
      etrans; [|apply IH]. rewrite dom_insert_L. set_solver. }
    specialize (Hf l m0). set_solver.
  - destruct (keeps_getattr nothing anything t (λ _, Logic.I) j "keys" σ' Hwf)
      as (Hwf1 & Hev1 & _).
    unfold bindM at 1.
    destruct (getattr t j "keys" σ') as [[keys|e] σ1]; simpl in *.
    + assert (Hm1 : mappings σ1 !! a = Some m0)
        by (apply (ev_mappings _ _ _ _ Hev1); [done|by intros ? ? []]).
      unfold bindM at 1.
      destruct (the_mapping (im_self keys) σ1) as [[src|e] σ2] eqn:Hsrc.
      * assert (σ2 = σ1) as ->.
        { revert Hsrc. unfold the_mapping, bindM, get_heap, deref. simpl.
          destruct (mappings σ1 !! im_self keys); by intros [= _ <-]. }
        case_bool_decide.
        -- rewrite (bindM_Return _ _ _ _ _ (the_mapping_Some _ _ _ Hm1)).
           simpl. eexists. rewrite list_lookup_insert_eq;
             [|by eapply lookup_lt_Some].
           split; [done|]. rewrite dom_union_L. set_solver.
        -- exists m0. split; [done|set_solver].
      * assert (σ2 = σ1) as ->.
        { revert Hsrc. unfold the_mapping, bindM, get_heap, deref. simpl.
          destruct (mappings σ1 !! im_self keys); by intros [= _ <-]. }
        exists m0. split; [done|set_solver].
    + exists m0. split; [|set_solver].
      apply (ev_mappings _ _ _ _ Hev1); [done|by intros ? ? []].
Qed.
End construction.

Lemma isinstance_of_self_pure x s σ : (isinstance_of_self x s σ).2 = σ.
Proof.
  unfold isinstance_of_self, the_instance, bindM, get_heap, deref. simpl.
  destruct (instances σ !! x); simpl; [|done].
  by destruct (instances σ !! s).
Qed.

Lemma bindM_ret_heap {A B} (m : M A) (x : B) σ :
  ((m ;;; ret x) σ).2 = (m σ).2.
Proof. unfold bindM. by destruct (m σ) as [[?|?] ?]. Qed.

Lemma __init___keeps_keys σ t c a m0 args kw :
  wf_heap (with_new_instance σ c) →
  slot σ c t = Some a → mappings σ !! a = Some m0 →
  ∃ m', mappings (__init__ t (length (instances σ)) args kw
                    (with_new_instance σ c)).2 !! a = Some m'
        ∧ dom m0 ⊆ dom m'.
Proof.
  intros Hwf Hs Hm. unfold __init__.
  assert (Hd : _dict t (length (instances σ)) (with_new_instance σ c)
               = (Return a, with_new_instance σ c))
    by (eapply _dict_slot; [apply self_is_inst|done]).
  assert (Hboth : ∀ (b : bool),
    ∃ m', mappings ((if b
             then let* d := _dict t (length (instances σ)) in
                  dict_update t d [] kw
             else let* d := _dict t (length (instances σ)) in
                  dict_update t d args kw) (with_new_instance σ c)).2 !! a
          = Some m' ∧ dom m0 ⊆ dom m').
  { intros []; rewrite (bindM_Return _ _ _ _ _ Hd);
      by apply (dict_update_keeps_keys _ _ _ _ _ Hs Hm). }
  destruct args as [|[src|l|x] rest];
    try (erewrite bindM_Return; [|reflexivity]; apply (Hboth false)).
  unfold bindM at 1.
  pose proof (isinstance_of_self_pure x (length (instances σ))
                (with_new_instance σ c)) as Hpure.
  destruct (isinstance_of_self _ _ _) as [[b|e] σ1]; simpl in Hpure; subst σ1.
  - apply Hboth.
  - exists m0. split; [done|set_solver].
Qed.

(** C4.  Constructing a context instance updates the calling thread's
    mapping and never replaces it.  With the thread's mapping holding [m0]
    and keywords that the call of [__init__] accepts (none named [self]):
    a first positional argument of the same context type leaves only the
    keyword arguments to be merged; otherwise the positional and keyword
    arguments all go to [update] on that same mapping object; with no
    positional argument the result is [m0] updated by the keywords, with
    a positional mapping it is [m0] updated by that mapping and then by
    the keywords; and no key of [m0] is ever lost, whatever the arguments
    and whether or not the call raises. *)
Theorem construct_updates_shared_mapping σ t c a m0 kw :
  wf_heap σ → slot σ c t = Some a → mappings σ !! a = Some m0 →
  "self" ∉ dom kw →
  (∀ j rest, is_inst σ j c →
     (construct t c (AInst j :: rest) kw σ).1 = Return (length (instances σ))
     ∧ context (construct t c (AInst j :: rest) kw σ).2 c t
       = Some (kw ∪ m0))
  ∧ (∀ args,
       match args with
       | AInst j :: _ => ∃ c', is_inst σ j c' ∧ c' ≠ c
       | _ => True
       end →
       construct t c args kw σ
       = (dict_update t a args kw ;;; ret (length (instances σ)))
           (with_new_instance σ c))
  ∧ ((construct t c [] kw σ).1 = Return (length (instances σ))
     ∧ context (construct t c [] kw σ).2 c t = Some (kw ∪ m0))
  ∧ (∀ src,
       (construct t c [AMap src] kw σ).1 = Return (length (instances σ))
       ∧ context (construct t c [AMap src] kw σ).2 c t
         = Some (kw ∪ (src ∪ m0)))
  ∧ (∀ args, ∃ m',
       context (construct t c args kw σ).2 c t = Some m'
       ∧ dom m0 ⊆ dom m').
Proof.
  intros Hwf Hs Hm Hkw.
  assert (Hm' : mappings (with_new_instance σ c) !! a = Some m0) by done.
  assert (Hwf0 : wf_heap (with_new_instance σ c)).
  { apply wf_new_instance; [done|].
    apply slot_Some in Hs as (C & HC & _). eauto. }
  split; [|split; [|split; [|split]]].
  - intros j rest Hj. rewrite (construct_unfold _ _ _ _ Hs); [|done].
    erewrite bindM_Return;
      [|erewrite __init___same_type; [by apply dict_update_nil|done..]].
    split; [done|]. apply context_set_mapping; [done|by eexists].
  - intros args Hargs. rewrite (construct_unfold _ _ _ _ Hs); [|done].
    unfold bindM. by erewrite __init___forward.
  - rewrite (construct_unfold _ _ _ _ Hs); [|done].
    erewrite bindM_Return;
      [|erewrite __init___forward; [by apply dict_update_nil|done..]].
    split; [done|]. apply context_set_mapping; [done|by eexists].
  - intros src. rewrite (construct_unfold _ _ _ _ Hs); [|done].
    erewrite bindM_Return;
      [|erewrite __init___forward; [by apply dict_update_map|done..]].
    split; [done|]. apply context_set_mapping; [done|by eexists].
  - intros args. rewrite (construct_unfold _ _ _ _ Hs); [|done].
    rewrite bindM_ret_heap.
    destruct (__init___keeps_keys σ t c a m0 args kw Hwf0 Hs Hm)
      as (m' & Hm1 & Hdom).
    exists m'. split; [|done]. unfold context.
    assert (Hs' : slot (__init__ t (length (instances σ)) args kw
                          (with_new_instance σ c)).2 c t = Some a).
    { destruct (keeps___init__ anything anything t (λ _, Logic.I)
                  (length (instances σ)) args kw _ Hwf0 (λ _ _, Logic.I))
        as (_ & Hev & _).
      by apply (ev_slot _ _ _ _ Hev). }
    by rewrite Hs'.
Qed.

Lemma construct_updates_shared_mapping_witness :
  context heap_single 0 0 = Some ctx_a1
  ∧ ("self" ∉ dom kw_b2)
  ∧ context (construct 0 0 [] kw_b2 heap_single).2 0 0
    = Some (kw_b2 ∪ ctx_a1).
Proof.
  assert (Hkw : "self" ∉ dom kw_b2) by (by apply not_elem_of_dom).
  split; [reflexivity|]. split; [exact Hkw|].
  refine (proj2 (proj1 (proj2 (proj2
    (construct_updates_shared_mapping heap_single 0 0 0 ctx_a1 kw_b2
       wf_heap_single _ _ Hkw))))); reflexivity.
Defined.

(** ** One mapping per context type and thread *)

Lemma lookup_self σ c :
  instances (with_new_instance σ c) !! length (instances σ)
  = Some {| inst_class := c; inst_dict := ∅ |}.
Proof. simpl. rewrite lookup_app_r; [|done]. by rewrite Nat.sub_diag. Qed.

(** [T( **kw)] always returns: it finds the thread's mapping or makes it. *)
Lemma construct_no_args σ t c C kw :
  wf_heap σ → classes σ !! c = Some C → "self" ∉ dom kw →
  ∃ a m σ1,
    construct t c [] kw σ = (Return (length (instances σ)), σ1)
    ∧ wf_heap σ1
    ∧ slot σ1 c t = Some a
    ∧ mappings σ1 !! a = Some (kw ∪ m)
    ∧ (match slot σ c t with
       | Some a0 => a0 = a ∧ mappings σ !! a = Some m
       | None => a = length (mappings σ) ∧ m = dict_class_call (_dict_class C)
       end)
    ∧ instances σ1
      = (instances σ ++ [{| inst_class := c; inst_dict := ∅ |}])%list.
Proof.
  intros Hwf HC Hkw.
  destruct (keeps_construct anything anything t (λ _, Logic.I) c [] kw σ
              Hwf Logic.I) as (Hwf1 & _ & _).
  destruct (slot σ c t) as [a|] eqn:Hs.
  - destruct (wf_slot_valid _ Hwf _ _ _ Hs) as [m Hm].
    exists a, m. eexists. revert Hwf1.
    rewrite (construct_unfold _ _ _ _ Hs); [|done].
    erewrite bindM_Return;
      [|erewrite __init___forward; [by eapply dict_update_nil|done..]].
    intros Hwf1. split_and!; try done.
    simpl. apply list_lookup_insert_eq. by eapply lookup_lt_Some.
  - assert (Hfree : _tl C !! t = None).
    { unfold slot in Hs. by rewrite HC in Hs. }
    exists (length (mappings σ)), (dict_class_call (_dict_class C)).
    eexists. revert Hwf1. unfold construct.
    rewrite (bindM_Return _ _ _ _ _ (the_class_Some _ _ _ HC)).
    change (bindM (new_instance ?o) ?k σ)
      with (k (length (instances σ)) (with_new_instance σ c)).
    cbv beta. rewrite bool_decide_eq_false_2; [|done]. unfold __init__.
    erewrite bindM_Return.
    2:{ erewrite bindM_Return; [|reflexivity]. cbv beta iota.
        erewrite bindM_Return; [|by eapply (_dict_miss _ _ _ _ _ (lookup_self σ c))].
        simpl. erewrite bindM_Return; [reflexivity|].
        apply the_mapping_Some. simpl.
        rewrite lookup_app_r; [|done]. by rewrite Nat.sub_diag. }
    intros Hwf1. split_and!; try done.
    + transitivity (slot (fill_slot (with_new_instance σ c) c C t) c t);
        [done|].
      rewrite (slot_fill_slot (with_new_instance σ c) c C t c t HC).
      by rewrite decide_True.
    + unfold ret. simpl. apply list_lookup_insert_eq.
      rewrite length_app. simpl. lia.
Qed.




Lemma copy_in_dict_attrs : "copy" ∈ dict_attrs.
Proof. unfold dict_attrs. set_solver. Qed.




(** ** Thread isolation *)

(** C6.  The code at two failing inputs, each with one context instance
    used by two threads.  In the first, thread 1 is the only thread that
    wrote the key [z]; thread 0 bound [a=1] and sees [{a:1}], without [z].
    Thread 0 then runs [with tmp_bind(logger, b=2): pass], and afterwards
    the context seen by thread 0 holds [z=9]: the snapshot was read through
    the [copy] that the instance stored while thread 1 was running.  In the
    second, the instance stored [update] while thread 1 was running; thread
    0 calls [ctx.update(b=2)], and the key [b] appears in the context seen
    by thread 1 and not in the one seen by thread 0. *)
Theorem keys_cross_threads_through_stored_methods :
  (context heap_shared 0 1 = Some ctx_z9
   ∧ context heap_shared 0 0 = Some ctx_a1
   ∧ ctx_a1 !! "z" = None
   ∧ (with_tmp_bind 0 the_logger kw_b2 (λ _, ret tt) heap_shared).1
     = Return tt
   ∧ ∃ m, context (with_tmp_bind 0 the_logger kw_b2 (λ _, ret tt)
                     heap_shared).2 0 0 = Some m
          ∧ m !! "z" = Some 9%Z)
  ∧ (context heap_stored_update 0 1 = Some ctx_z9
     ∧ context heap_stored_update 0 0 = Some ctx_a1
     ∧ ctx_z9 !! "b" = None
     ∧ (call_forwarded 0 0 (c_update [] kw_b2) heap_stored_update).1
       = Return VNone
     ∧ (∃ m, context (call_forwarded 0 0 (c_update [] kw_b2)
                        heap_stored_update).2 0 1 = Some m
             ∧ m !! "b" = Some 2%Z)
     ∧ context (call_forwarded 0 0 (c_update [] kw_b2)
                  heap_stored_update).2 0 0 = Some ctx_a1).
Proof.
  split.
  - split_and!; try (vm_compute; reflexivity).
    eexists. split; vm_compute; reflexivity.
  - split_and!; try (vm_compute; reflexivity).
    eexists. split; vm_compute; reflexivity.
Qed.

(** X17.  Thread [A] makes any call other than a forwarded method call:
    constructing an instance, assigning an item, [bind], entering
    [tmp_bind], or the restore after its [yield].  For every other thread [B]
    and every context type, the slot of [B] and the contents of the
    mapping in it are what they were; in particular an item assignment by
    [A] does not make its key appear for [B]. *)
Theorem calls_touch_only_the_calling_thread σ A B o :
  wf_heap σ → A ≠ B → (∀ i c, o ≠ op_call i c) →
  (∀ c, is_Some (classes σ !! c) →
     slot (run_op A o σ).2 c B = slot σ c B
     ∧ context (run_op A o σ).2 c B = context σ c B)
  ∧ (∀ c i k v m, o = op_setitem i k v → is_inst σ i c →
       context σ c B = Some m → m !! k = None →
       ∃ m', context (run_op A o σ).2 c B = Some m' ∧ m' !! k = None).
Proof.
  intros Hwf HAB Hcall.
  assert (Hfp : footprint (of_thread A) A σ o).
  { destruct o; simpl; try done. by destruct (Hcall i c). }
  destruct (keeps_run_op (of_thread A) (of_thread A) A o σ
              (λ _, eq_refl) Hwf Hfp) as (Hwf' & Hev & _).
  assert (Hframe : ∀ c, is_Some (classes σ !! c) →
     slot (run_op A o σ).2 c B = slot σ c B
     ∧ context (run_op A o σ).2 c B = context σ c B).
  { intros c Hc.
    assert (Hs : slot (run_op A o σ).2 c B = slot σ c B).
    { destruct (slot σ c B) as [a|] eqn:Hs.
      - by apply (ev_slot _ _ _ _ Hev).
      - destruct (slot (run_op A o σ).2 c B) as [a|] eqn:Hs'; [|done].
        destruct (ev_slot_new _ _ _ _ Hev _ _ _ Hs Hs') as [_ HQ].
        destruct HAB. symmetry. by apply HQ. }
    split; [done|]. unfold context. rewrite Hs.
    destruct (slot σ c B) as [a|] eqn:Hs0; [|done].
    destruct (wf_slot_valid _ Hwf _ _ _ Hs0) as [d Hd]. rewrite Hd.
    apply (ev_mappings _ _ _ _ Hev); [done|].
    intros c' t' -> Hs1.
    destruct (wf_slot_inj _ Hwf _ _ _ _ _ Hs1 Hs0) as [_ ?]. done. }
  split; [done|].
  intros c i k v m -> (oi & Hoi & Hci) Hm Hk. exists m. split; [|done].
  destruct (Hframe c) as [_ ->]; [|done].
  rewrite <- Hci. by eapply wf_inst_class.
Qed.

Lemma calls_touch_only_the_calling_thread_witness :
  wf_heap heap_shared ∧ 0 ≠ 1
  ∧ context (run_op 0 (op_setitem 0 "k" 5%Z) heap_shared).2 0 1
    = context heap_shared 0 1.
Proof.
  split; [exact wf_heap_shared|]. split; [lia|].
  refine (proj2 (proj1
    (calls_touch_only_the_calling_thread heap_shared 0 1
       (op_setitem 0 "k" 5%Z) wf_heap_shared _ _) 0 _)).
  - lia.
  - intros i c. discriminate.
  - eexists. reflexivity.
Defined.

(** ** Separate context types *)

(** C8.  Two calls of [wrap_dict], whatever runs in between and even with
    the same backing class and the same random name, return two different
    classes.  From then on instances of the two are never [==], no mapping
    object sits in a slot of both, and a call that goes through the first
    class, forwarded method calls included, leaves every context of the
    second as it was. *)
Theorem factory_calls_give_separate_types σ dc u1 u2 p :
  wf_heap σ →
  ∃ c1 c2 σ1 σ3,
    wrap_dict dc u1 σ = (Return c1, σ1)
    ∧ wrap_dict dc u2 (run_ops p σ1).2 = (Return c2, σ3)
    ∧ c1 ≠ c2
    ∧ Wrapped c1 ≠ Wrapped c2
    ∧ ∀ q,
        (∀ i j, is_inst (run_ops q σ3).2 i c1 →
                is_inst (run_ops q σ3).2 j c2 →
                __eq__ i (OInst j) (run_ops q σ3).2
                = (Return false, (run_ops q σ3).2))
        ∧ (∀ t t' a, slot (run_ops q σ3).2 c1 t = Some a →
                     slot (run_ops q σ3).2 c2 t' ≠ Some a)
        ∧ (∀ t o, footprint (of_class c1) t (run_ops q σ3).2 o →
           ∀ t' m, context (run_ops q σ3).2 c2 t' = Some m →
                   context (run_op t o (run_ops q σ3).2).2 c2 t' = Some m).
Proof.
  intros Hwf.
  set (σ1 := (wrap_dict dc u1 σ).2).
  set (σ2 := (run_ops p σ1).2).
  set (σ3 := (wrap_dict dc u2 σ2).2).
  assert (Hwf1 : wf_heap σ1) by by apply wf_new_class.
  assert (Hwf2 : wf_heap σ2) by by apply wf_run_ops.
  assert (Hwf3 : wf_heap σ3) by by apply wf_new_class.
  assert (Hlen : length (classes σ) < length (classes σ2)).
  { assert (Hc1 : is_Some (classes σ1 !! length (classes σ))).
    { apply lookup_lt_is_Some. unfold σ1. simpl. rewrite length_app.
      simpl. lia. }
    destruct Hc1 as [C1 HC1].
    destruct (ev_classes _ _ _ _ (evolves_run_ops p σ1 Hwf1) _ _ HC1)
      as (C2 & HC2 & _).
    by eapply lookup_lt_Some. }
  exists (length (classes σ)), (length (classes σ2)), σ1, σ3.
  split; [done|]. split; [done|]. split; [lia|]. split; [intros [= ?]; lia|].
  intros q. set (σ4 := (run_ops q σ3).2).
  assert (Hwf4 : wf_heap σ4) by by apply wf_run_ops.
  split_and!.
  - intros i j (oi & Hoi & Hci) (oj & Hoj & Hcj). unfold __eq__.
    rewrite (bindM_Return _ _ _ _ _ (class_of_inst _ _ _ Hoi)).
    rewrite (bindM_Return _ _ _ _ _ (class_of_inst _ _ _ Hoj)).
    unfold ret. rewrite bool_decide_eq_false_2; [done|].
    rewrite Hci, Hcj. intros [= ?]. lia.
  - intros t t' a Hs1 Hs2.
    destruct (wf_slot_inj _ Hwf4 _ _ _ _ _ Hs1 Hs2). lia.
  - intros t o Hfp t' m Hm.
    destruct (keeps_run_op (of_class (length (classes σ))) anything t o σ4
                (λ _, Logic.I) Hwf4 Hfp) as (_ & Hev & _).
    unfold context in *.
    destruct (slot σ4 (length (classes σ2)) t') as [a|] eqn:Hs; [|done].
    rewrite (ev_slot _ _ _ _ Hev _ _ _ Hs).
    apply (ev_mappings _ _ _ _ Hev); [done|].
    intros c' t0 -> Hs1.
    destruct (wf_slot_inj _ Hwf4 _ _ _ _ _ Hs1 Hs). lia.
Qed.

Lemma factory_calls_give_separate_types_witness :
  wf_heap empty_heap
  ∧ ∃ c1 c2 σ1 σ3,
      wrap_dict DictClass "0001" empty_heap = (Return c1, σ1)
      ∧ wrap_dict DictClass "0001" (run_ops [] σ1).2 = (Return c2, σ3)
      ∧ c1 ≠ c2.
Proof.
  split; [exact wf_empty_heap|].
  destruct (factory_calls_give_separate_types empty_heap DictClass
              "0001" "0001" [] wf_empty_heap)
    as (c1 & c2 & σ1 & σ3 & H1 & H2 & H3 & _).
  exists c1, c2, σ1, σ3. exact (conj H1 (conj H2 H3)).
Defined.

(** Two context types over [dict] on one thread: [x=1] bound through the
    first is not seen through the second. *)
Example two_types_one_thread :
  let σ := (run_ops [(0, op_wrap_dict DictClass "0001");
                     (0, op_wrap_dict DictClass "0001");
                     (0, op_construct 0 [] {["x" := 1%Z]});
                     (0, op_construct 1 [] ∅)] empty_heap).2 in
  (call_forwarded 0 0 (c_get "x") σ).1 = Return (VInt 1)
  ∧ (call_forwarded 0 1 (c_get "x") σ).1 = Return VNone
  ∧ (__eq__ 0 (OInst 1) σ).1 = Return false.
Proof. vm_compute. done. Qed.

(** ** Forwarded attributes *)

Lemma getattr_miss_fill σ t i o C name :
  instances σ !! i = Some o → classes σ !! inst_class o = Some C →
  _tl C !! t = None → inst_dict o !! name = None → name ∈ dict_attrs →
  getattr t i name σ
  = (Return (BoundMethod (length (mappings σ)) name),
     with_attr (fill_slot σ (inst_class o) C t) i o name
       (BoundMethod (length (mappings σ)) name)).
Proof.
  intros Ho HC Hfree Hm Hname. unfold getattr.
  rewrite (bindM_Return _ _ _ _ _ (the_instance_Some _ _ _ Ho)).
  rewrite Hm. unfold __getattr__.
  rewrite (bindM_Return _ _ _ _ _ (_dict_miss _ _ _ _ _ Ho HC Hfree)).
  erewrite bindM_Return; [|by apply the_instance_Some].
  erewrite bindM_Return.
  2:{ apply the_class_Some. simpl. apply list_lookup_insert_eq.
      by eapply lookup_lt_Some. }
  simpl. rewrite bool_decide_eq_true_2; [done|].
  by apply dict_attrs_mapping_attrs.
Qed.

(** C9.  The first lookup of a forwarded name on an instance returns the
    method of the mapping that is in the calling thread's slot at that
    moment, and [setattr] stores it on the instance.  After any program,
    a lookup of the name on that instance by any thread returns the same
    stored method and changes nothing, so a forwarded call through it acts
    on the mapping of the first thread; for another thread that mapping is
    not the one in its own slot. *)
Theorem forwarded_method_is_stored_on_first_lookup σ t i o name :
  wf_heap σ → instances σ !! i = Some o →
  inst_dict o !! name = None → name ∈ dict_attrs →
  ∃ a σ1,
    getattr t i name σ = (Return (BoundMethod a name), σ1)
    ∧ slot σ1 (inst_class o) t = Some a
    ∧ (∀ a0, slot σ (inst_class o) t = Some a0 → a0 = a)
    ∧ (∃ o1, instances σ1 !! i = Some o1
             ∧ inst_dict o1 !! name = Some (BoundMethod a name))
    ∧ ∀ p t',
        getattr t' i name (run_ops p σ1).2
        = (Return (BoundMethod a name), (run_ops p σ1).2)
        ∧ (∀ c, call_name c = name →
             call_forwarded t' i c (run_ops p σ1).2
             = apply_method t' a c (run_ops p σ1).2)
        ∧ slot (run_ops p σ1).2 (inst_class o) t = Some a
        ∧ (t' ≠ t → slot (run_ops p σ1).2 (inst_class o) t' ≠ Some a).
Proof.
  intros Hwf Ho Hfree Hname.
  destruct (keeps_getattr anything anything t (λ _, Logic.I) i name σ Hwf)
    as (Hwf1 & _ & _).
  assert (Hfirst : ∃ a σ1,
    getattr t i name σ = (Return (BoundMethod a name), σ1)
    ∧ slot σ1 (inst_class o) t = Some a
    ∧ (∀ a0, slot σ (inst_class o) t = Some a0 → a0 = a)
    ∧ (∃ o1, instances σ1 !! i = Some o1
             ∧ inst_dict o1 !! name = Some (BoundMethod a name))).
  { destruct (wf_inst_class _ Hwf _ _ Ho) as [C HC].
    destruct (_tl C !! t) as [a|] eqn:Ha.
    - assert (Hs : slot σ (inst_class o) t = Some a)
        by (apply slot_Some; eauto).
      exists a. eexists.
      split; [by apply (getattr_miss _ _ _ _ _ _ Ho Hfree Hname Hs)|].
      split; [done|]. split; [congruence|].
      eexists. unfold with_attr. simpl.
      rewrite list_lookup_insert_eq; [|by eapply lookup_lt_Some].
      split; [done|]. simpl. by rewrite lookup_insert_eq.
    - assert (Hs : slot σ (inst_class o) t = None)
        by (unfold slot; by rewrite HC).
      exists (length (mappings σ)). eexists.
      split; [by apply (getattr_miss_fill _ _ _ _ _ _ Ho HC Ha Hfree Hname)|].
      split_and!.
      + transitivity (slot (fill_slot σ (inst_class o) C t) (inst_class o) t);
          [done|].
        rewrite slot_fill_slot; [|done]. by rewrite decide_True.
      + congruence.
      + eexists. unfold with_attr. simpl.
        rewrite list_lookup_insert_eq; [|by eapply lookup_lt_Some].
        split; [done|]. simpl. by rewrite lookup_insert_eq. }
  destruct Hfirst as (a & σ1 & Hget & Hs1 & Hsame & o1 & Ho1 & Hm1).
  rewrite Hget in Hwf1. simpl in Hwf1.
  exists a, σ1. split_and!; try done. { by exists o1. }
  intros p t'.
  pose proof (evolves_run_ops p σ1 Hwf1) as Hev.
  pose proof (wf_run_ops p σ1 Hwf1) as Hwf2.
  destruct (ev_instances _ _ _ _ Hev _ _ Ho1) as (o2 & Ho2 & Hc2 & Hsub).
  assert (Hm2 : inst_dict o2 !! name = Some (BoundMethod a name))
    by by eapply lookup_weaken.
  assert (Hs2 : slot (run_ops p σ1).2 (inst_class o) t = Some a)
    by by apply (ev_slot _ _ _ _ Hev).
  split_and!.
  - by eapply getattr_cached.
  - intros c <-. unfold call_forwarded.
    by erewrite bindM_Return; [|by eapply getattr_cached].
  - done.
  - intros Hne Hs'.
    destruct (wf_slot_inj _ Hwf2 _ _ _ _ _ Hs' Hs2) as [_ ?]. done.
Qed.

Lemma forwarded_method_is_stored_on_first_lookup_witness :
  wf_heap heap_single
  ∧ ∃ a σ1,
      getattr 1 0 "update" heap_single = (Return (BoundMethod a "update"), σ1)
      ∧ call_forwarded 0 0 (c_update [] kw_b2) σ1
        = apply_method 0 a (c_update [] kw_b2) σ1
      ∧ slot σ1 0 0 ≠ Some a.
Proof.
  split; [exact wf_heap_single|].
  destruct (forwarded_method_is_stored_on_first_lookup heap_single 1 0
              {| inst_class := 0; inst_dict := ∅ |} "update" wf_heap_single
              eq_refl eq_refl)
    as (a & σ1 & Hget & _ & _ & _ & Hlater).
  { unfold dict_attrs. set_solver. }
  exists a, σ1. split; [exact Hget|].
  destruct (Hlater [] 0) as (_ & Hcall & _ & Hother).
  split; [exact (Hcall (c_update [] kw_b2) eq_refl)|].
  apply Hother. lia.
Defined.

(** ** The scoped binder: entering and restoring *)

(** The code after the [yield]: the mapping object in the thread's slot
    gets the snapshot as its contents; nothing else changes. *)
Lemma tmp_bind_resume_eval σ t fr c a :
  _current_context_class (f_logger fr) = Wrapped c →
  slot σ c t = Some a → is_Some (mappings σ !! a) →
  tmp_bind_resume t fr σ = (Return tt, (set_mapping a (f_saved fr) σ).2).
Proof.
  intros Hc Hs Hm. unfold tmp_bind_resume. rewrite Hc.
  rewrite (bindM_Return _ _ _ _ _ (tl_dict__Some _ _ _ _ Hs)).
  erewrite bindM_Return; [|reflexivity].
  erewrite bindM_Return; [|by apply tl_dict__Some].
  erewrite dict_update_map.
  2:{ simpl. apply list_lookup_insert_eq. by apply lookup_lt_is_Some. }
  simpl. rewrite list_insert_insert_eq.
  by rewrite (right_id_L ∅ (∪)), (left_id_L ∅ (∪)).
Qed.

Section enter.
Context (σ : heap) (t : tid) (c : clsid) (i : instid) (o : instance).
Context (a : addr) (m0 : pydict) (tmp_values : pydict).
Hypothesis Hwf : wf_heap σ.
Hypothesis Ho : instances σ !! i = Some o.
Hypothesis Hc : inst_class o = c.
Hypothesis Hs : slot σ c t = Some a.
Hypothesis Hm : mappings σ !! a = Some m0.
Hypothesis Hlogger : "logger" ∉ dom tmp_values.
Hypothesis Hself : "self" ∉ dom tmp_values.

Let logger : bound_logger :=
  {| _current_context_class := Wrapped c; _context := OInst i |}.

(** [logger._context.copy()]: the snapshot is read through the stored
    [copy] if there is one, whichever mapping it is bound to. *)
Lemma context_copy_eval :
  ∃ saved σc,
    context_copy t logger σ = (Return saved, σc)
    ∧ classes σc = classes σ ∧ mappings σc = mappings σ
    ∧ is_inst σc i c
    ∧ ((∀ m, inst_dict o !! "copy" = Some m → im_self m = a) →
       saved = m0).
Proof.
  unfold context_copy. simpl.
  destruct (inst_dict o !! "copy") as [m|] eqn:Hcopy.
  - destruct (wf_inst_dict _ Hwf _ _ _ _ Ho Hcopy) as [_ [t' Hs']].
    destruct (wf_slot_valid _ Hwf _ _ _ Hs') as [saved Hsaved].
    exists saved, σ.
    rewrite (bindM_Return _ _ _ _ _ (getattr_cached _ t _ _ _ _ Ho Hcopy)).
    split; [by apply the_mapping_Some|].
    split_and!; [done|done|by exists o|].
    intros Hlocal. rewrite (Hlocal m eq_refl) in Hsaved. congruence.
  - exists m0. eexists.
    erewrite bindM_Return.
    2:{ apply (getattr_miss _ t _ _ _ a Ho Hcopy copy_in_dict_attrs).
        by rewrite Hc. }
    split; [by apply the_mapping_Some|].
    split_and!; [done|done| |done].
    eexists. split.
    + unfold with_attr. simpl. apply list_lookup_insert_eq.
      by eapply lookup_lt_Some.
    + done.
Qed.

Lemma tmp_bind_enter_eval :
  ∃ saved i' σ1,
    tmp_bind_enter t logger tmp_values σ
    = (Return ({| f_logger := logger; f_saved := saved |},
               {| _current_context_class := Wrapped c;
                  _context := OInst i' |}), σ1)
    ∧ wf_heap σ1
    ∧ is_inst σ1 i' c
    ∧ slot σ1 c t = Some a
    ∧ mappings σ1 !! a = Some (tmp_values ∪ m0)
    ∧ ((∀ m, inst_dict o !! "copy" = Some m → im_self m = a) →
       saved = m0).
Proof.
  destruct (keeps_tmp_bind_enter anything anything t (λ _, Logic.I) logger
              tmp_values σ Hwf (λ _ _, Logic.I)) as (Hwf1 & _ & _).
  destruct context_copy_eval
    as (saved & σc & Hcopy & Hcls & Hmaps & Hi & Hsaved).
  assert (Hsc : slot σc c t = Some a) by (unfold slot; by rewrite Hcls).
  assert (Hmc : mappings σc !! a = Some m0) by by rewrite Hmaps.
  exists saved, (length (instances σc)). eexists.
  revert Hwf1. unfold tmp_bind_enter. simpl.
  rewrite bool_decide_eq_false_2; [|done].
  rewrite (bindM_Return _ _ _ _ _ Hcopy). unfold bind. simpl.
  erewrite bindM_Return.
  2:{ erewrite bindM_Return; [reflexivity|].
      rewrite (construct_unfold _ _ _ _ Hsc); [|done].
      erewrite bindM_Return; [reflexivity|].
      erewrite __init___same_type; [|done..].
      by eapply dict_update_nil. }
  intros Hwf1. split; [done|]. split; [done|].
  split; [|split; [done|split; [|done]]].
  - exists {| inst_class := c; inst_dict := ∅ |}. split; [|done].
    apply lookup_self.
  - simpl. apply list_lookup_insert_eq. by eapply lookup_lt_Some.
Qed.
End enter.

Lemma with_tmp_bind_block_returns {A} t logger tmp_values
    (block : bound_logger → M A) σ fr tmp σ1 x σ2 c a :
  tmp_bind_enter t logger tmp_values σ = (Return (fr, tmp), σ1) →
  block tmp σ1 = (Return x, σ2) →
  _current_context_class (f_logger fr) = Wrapped c →
  slot σ2 c t = Some a → is_Some (mappings σ2 !! a) →
  with_tmp_bind t logger tmp_values block σ
  = (Return x, (set_mapping a (f_saved fr) σ2).2).
Proof.
  intros He Hb Hc Hs Hm. unfold with_tmp_bind.
  rewrite (bindM_Return _ _ _ _ _ He). simpl. rewrite Hb.
  by rewrite (bindM_Return _ _ _ _ _ (tmp_bind_resume_eval _ _ _ _ _ Hc Hs Hm)).
Qed.

(** X16.  The restore writes into the mapping object that was in the
    thread's slot before the scope.  For keywords that the calls accept
    (none named [logger] or [self]) entering returns, and the slot holds
    the same object before the scope, inside it, after the block and after
    the restore; the heap after the restore is the heap the block left
    with the snapshot as the contents of that one object.  The snapshot is
    the contents before the scope when a [copy] stored on the logger's
    context instance, if any, is bound to that object. *)
Theorem tmp_bind_restores_in_place σ t c i o tmp_values a m0
    (block : bound_logger → list (tid * op)) :
  wf_heap σ → instances σ !! i = Some o → inst_class o = c →
  slot σ c t = Some a → mappings σ !! a = Some m0 →
  "logger" ∉ dom tmp_values → "self" ∉ dom tmp_values →
  ∃ fr tmp σ1,
    tmp_bind_enter t
      {| _current_context_class := Wrapped c; _context := OInst i |}
      tmp_values σ = (Return (fr, tmp), σ1)
    ∧ slot σ1 c t = Some a
    ∧ ((∀ m, inst_dict o !! "copy" = Some m → im_self m = a) →
       f_saved fr = m0)
    ∧ ∀ σ2, run_ops (block tmp) σ1 = (Return tt, σ2) →
        slot σ2 c t = Some a
        ∧ with_tmp_bind t
            {| _current_context_class := Wrapped c; _context := OInst i |}
            tmp_values (λ l, run_ops (block l)) σ
          = (Return tt, (set_mapping a (f_saved fr) σ2).2)
        ∧ slot (set_mapping a (f_saved fr) σ2).2 c t = Some a
        ∧ mappings (set_mapping a (f_saved fr) σ2).2 !! a
          = Some (f_saved fr).
Proof.
  intros Hwf Ho Hc Hs Hm Hlogger Hself.
  destruct (tmp_bind_enter_eval σ t c i o a m0 tmp_values Hwf Ho Hc Hs Hm
              Hlogger Hself)
    as (saved & i' & σ1 & He & Hwf1 & Hi' & Hs1 & Hm1 & Hsaved).
  eexists _, _, σ1. split; [exact He|]. split; [done|]. split; [done|].
  intros σ2 Hblock.
  pose proof (evolves_run_ops (block {|
      _current_context_class := Wrapped c; _context := OInst i' |}) σ1 Hwf1)
    as Hev.
  pose proof (wf_run_ops (block {|
      _current_context_class := Wrapped c; _context := OInst i' |}) σ1 Hwf1)
    as Hwf2.
  rewrite Hblock in Hev, Hwf2. simpl in Hev, Hwf2.
  assert (Hs2 : slot σ2 c t = Some a) by by apply (ev_slot _ _ _ _ Hev).
  pose proof (wf_slot_valid _ Hwf2 _ _ _ Hs2) as Hm2.
  split_and!.
  - done.
  - by eapply (with_tmp_bind_block_returns _ _ _
                 (λ l, run_ops (block l)) _ _ _ _ _ _ _ _ He Hblock).
  - done.
  - simpl. apply list_lookup_insert_eq. by apply lookup_lt_is_Some.
Qed.

Lemma tmp_bind_restores_in_place_witness :
  wf_heap heap_single ∧ slot heap_single 0 0 = Some 0
  ∧ ("logger" ∉ dom kw_b2) ∧ ("self" ∉ dom kw_b2)
  ∧ slot (with_tmp_bind 0 the_logger kw_b2
            (λ l, run_ops [(0, op_bind l kw_c3)]) heap_single).2 0 0
    = Some 0.
Proof.
  assert (Hlogger : "logger" ∉ dom kw_b2) by (by apply not_elem_of_dom).
  assert (Hself : "self" ∉ dom kw_b2) by (by apply not_elem_of_dom).
  split; [exact wf_heap_single|]. split; [reflexivity|].
  split; [exact Hlogger|]. split; [exact Hself|].
  destruct (tmp_bind_restores_in_place heap_single 0 0 0
              {| inst_class := 0; inst_dict := ∅ |} kw_b2 0 ctx_a1
              (λ l, [(0, op_bind l kw_c3)]) wf_heap_single
              eq_refl eq_refl eq_refl eq_refl Hlogger Hself)
    as (fr & tmp & σ1 & He & _ & _ & Hexit).
  vm_compute in He. injection He as <- <- <-.
  destruct (Hexit _ eq_refl) as (_ & Hwith & Hslot & _).
  unfold the_logger. rewrite Hwith. exact Hslot.
Defined.

(** C10.  The code at the failing input: one logger object is used by
    two threads, and thread 0, whose context is [{a:1}], runs
    [with tmp_bind(logger, b=2): pass].  The restore is in place: the slot
    of thread 0 holds the same mapping object before and after the scope.
    But the contents that object is left with are [{z:9}], the snapshot
    read through the [copy] stored while thread 1 was running, and not the
    contents [{a:1}] it had before the scope; any reference to the object
    sees [{z:9}]. *)
Theorem tmp_bind_restores_a_stale_snapshot_in_place :
  slot heap_shared 0 0 = Some 1
  ∧ mappings heap_shared !! 1 = Some ctx_a1
  ∧ (with_tmp_bind 0 the_logger kw_b2 (λ _, ret tt) heap_shared).1
    = Return tt
  ∧ slot (with_tmp_bind 0 the_logger kw_b2 (λ _, ret tt) heap_shared).2 0 0
    = Some 1
  ∧ mappings (with_tmp_bind 0 the_logger kw_b2 (λ _, ret tt) heap_shared).2
      !! 1 = Some ctx_z9
  ∧ ctx_z9 ≠ ctx_a1.
Proof.
  split_and!; try (vm_compute; reflexivity).
  intros H. apply (f_equal (λ m : pydict, m !! "a")) in H.
  vm_compute in H. discriminate H.
Qed.

(** X9.  The round trip where the snapshot is the calling thread's: the
    logger's context instance either has no [copy] stored or has it bound
    to the calling thread's mapping, and no keyword is named [logger] or
    [self].  With the thread's context holding
    [m0], [tmp_bind(logger, **tmp_values)] yields a logger of the same
    context type while the context holds [m0] updated by [tmp_values]; and
    when the block returns, whatever calls it made through the yielded
    logger, the original one or anything else, the context is [m0]
    again. *)
Theorem tmp_bind_round_trip σ t c i o tmp_values m0
    (block : bound_logger → list (tid * op)) :
  wf_heap σ → instances σ !! i = Some o → inst_class o = c →
  context σ c t = Some m0 →
  (∀ m, inst_dict o !! "copy" = Some m → slot σ c t = Some (im_self m)) →
  "logger" ∉ dom tmp_values → "self" ∉ dom tmp_values →
  ∃ fr tmp σ1,
    tmp_bind_enter t
      {| _current_context_class := Wrapped c; _context := OInst i |}
      tmp_values σ = (Return (fr, tmp), σ1)
    ∧ _current_context_class tmp = Wrapped c
    ∧ (∃ i', _context tmp = OInst i' ∧ is_inst σ1 i' c)
    ∧ context σ1 c t = Some (tmp_values ∪ m0)
    ∧ ∀ σ2, run_ops (block tmp) σ1 = (Return tt, σ2) →
        ∃ σ3,
          with_tmp_bind t
            {| _current_context_class := Wrapped c; _context := OInst i |}
            tmp_values (λ l, run_ops (block l)) σ = (Return tt, σ3)
          ∧ context σ3 c t = Some m0.
Proof.
  intros Hwf Ho Hc Hctx Hlocal Hlogger Hself. unfold context in Hctx.
  destruct (slot σ c t) as [a|] eqn:Hs; [|done].
  destruct (tmp_bind_enter_eval σ t c i o a m0 tmp_values Hwf Ho Hc Hs Hctx
              Hlogger Hself)
    as (saved & i' & σ1 & He & Hwf1 & Hi' & Hs1 & Hm1 & Hsaved).
  rewrite Hsaved in He.
  2:{ intros m Hm. specialize (Hlocal m Hm). congruence. }
  eexists _, _, σ1. split; [exact He|]. split; [done|].
  split; [by exists i'|]. split; [unfold context; by rewrite Hs1|].
  intros σ2 Hblock.
  pose proof (evolves_run_ops (block {|
      _current_context_class := Wrapped c; _context := OInst i' |}) σ1 Hwf1)
    as Hev.
  pose proof (wf_run_ops (block {|
      _current_context_class := Wrapped c; _context := OInst i' |}) σ1 Hwf1)
    as Hwf2.
  rewrite Hblock in Hev, Hwf2. simpl in Hev, Hwf2.
  assert (Hs2 : slot σ2 c t = Some a) by by apply (ev_slot _ _ _ _ Hev).
  pose proof (wf_slot_valid _ Hwf2 _ _ _ Hs2) as Hm2.
  eexists. split.
  - by eapply (with_tmp_bind_block_returns _ _ _
                 (λ l, run_ops (block l)) _ _ _ _ _ _ _ _ He Hblock).
  - simpl. apply context_set_mapping; done.
Qed.

Lemma tmp_bind_round_trip_witness :
  wf_heap heap_single ∧ context heap_single 0 0 = Some ctx_a1
  ∧ ("logger" ∉ dom kw_b2) ∧ ("self" ∉ dom kw_b2)
  ∧ context (tmp_bind_enter 0 the_logger kw_b2 heap_single).2 0 0
    = Some (kw_b2 ∪ ctx_a1)
  ∧ context (with_tmp_bind 0 the_logger kw_b2
               (λ l, run_ops [(0, op_bind l kw_c3);
                              (0, op_bind the_logger kw_c3)])
               heap_single).2 0 0
    = Some ctx_a1.
Proof.
  assert (Hlogger : "logger" ∉ dom kw_b2) by (by apply not_elem_of_dom).
  assert (Hself : "self" ∉ dom kw_b2) by (by apply not_elem_of_dom).
  split; [exact wf_heap_single|]. split; [reflexivity|].
  split; [exact Hlogger|]. split; [exact Hself|].
  assert (Hlocal : ∀ m : bound_method,
            inst_dict {| inst_class := 0; inst_dict := ∅ |} !! "copy" = Some m →
            slot heap_single 0 0 = Some (im_self m))
    by (intros m Hm; discriminate Hm).
  destruct (tmp_bind_round_trip heap_single 0 0 0
              {| inst_class := 0; inst_dict := ∅ |} kw_b2 ctx_a1
              (λ l, [(0, op_bind l kw_c3); (0, op_bind the_logger kw_c3)])
              wf_heap_single eq_refl eq_refl eq_refl Hlocal Hlogger Hself)
    as (fr & tmp & σ1 & He & _ & _ & Hin & Hexit).
  unfold the_logger. rewrite He. split; [exact Hin|].
  vm_compute in He. injection He as <- <- <-.
  destruct (Hexit _ eq_refl) as (σ3 & Hwith & Hctx).
  unfold the_logger in Hwith. rewrite Hwith. exact Hctx.
Defined.

Lemma eq_compares_classes_only_witness :
  instances heap_shared !! 0 = Some (MkInstance 0 {["copy" := BoundMethod 0 "copy"]})
  ∧ instances heap_shared !! 1 = Some (MkInstance 0 ∅)
  ∧ __eq__ 0 (OInst 1) heap_shared = (Return true, heap_shared)
  ∧ __ne__ 0 (OInst 1) heap_shared = (Return false, heap_shared).
Proof.
  split; [reflexivity|]. split; [reflexivity|].
  destruct (eq_compares_classes_only heap_shared 0 1 _ _ eq_refl eq_refl)
    as (Hsame & _ & _ & Hne).
  pose proof (Hsame eq_refl (mappings heap_shared)) as Heq.
  split; [exact Heq|]. exact (Hne (OInst 1) true Heq).
Defined.

(** * Further properties of the module *)

(** ** The accessor, evaluated *)

(** [self._dict] on a live instance always returns: the mapping in the
    calling thread's slot, made empty on the spot if the slot was empty.
    No existing mapping changes and nothing is stored on an instance. *)
Lemma _dict_eval σ t i c :
  wf_heap σ → is_inst σ i c →
  ∃ a σ1,
    _dict t i σ = (Return a, σ1)
    ∧ wf_heap σ1
    ∧ slot σ1 c t = Some a
    ∧ mappings σ1 !! a = Some (default ∅ (context σ c t))
    ∧ instances σ1 = instances σ
    ∧ evolves nothing (of_thread t) σ σ1
    ∧ (is_Some (slot σ c t) → σ1 = σ)
    ∧ (slot σ c t = None → a = length (mappings σ)).
Proof.
  intros Hwf (o & Ho & <-).
  destruct (wf_inst_class _ Hwf _ _ Ho) as [C HC].
  destruct (_tl C !! t) as [a|] eqn:Ha.
  - assert (Hs : slot σ (inst_class o) t = Some a) by (apply slot_Some; eauto).
    destruct (wf_slot_valid _ Hwf _ _ _ Hs) as [d Hd].
    exists a, σ. split; [by eapply _dict_hit|].
    split_and!; try done.
    + unfold context. rewrite Hs. by rewrite Hd.
    + apply evolves_refl.
    + rewrite Hs. done.
  - assert (Hs : slot σ (inst_class o) t = None) by (unfold slot; by rewrite HC).
    exists (length (mappings σ)), (fill_slot σ (inst_class o) C t).
    split; [by eapply _dict_miss|].
    split_and!; try done.
    + by apply wf_fill_slot.
    + rewrite slot_fill_slot; [|done]. by rewrite decide_True.
    + unfold context. rewrite Hs. simpl.
      rewrite lookup_app_r; [|done]. by rewrite Nat.sub_diag.
    + by apply evolves_fill_slot.
    + rewrite Hs. by intros [? ?].
Qed.

Lemma evolves_nothing_mappings Q σ σ' a d :
  evolves nothing Q σ σ' → mappings σ !! a = Some d → mappings σ' !! a = Some d.
Proof. intros Hev Hd. apply (ev_mappings _ _ _ _ Hev); [done|by intros ? ? []]. Qed.

(** ** [wrap_dict] makes a class and nothing else *)

(** X1.  [wrap_dict] returns a class that was not there before, named
    [WrappedDict-] followed by the random identifier and carrying the
    backing class; no thread has a mapping of the new type yet, and every
    slot, mapping and instance of the heap is as before. *)
Theorem wrap_dict_only_adds_a_class σ dict_class uuid4 :
  ∃ c σ',
    wrap_dict dict_class uuid4 σ = (Return c, σ')
    ∧ classes σ !! c = None
    ∧ classes σ' !! c
      = Some {| cls_name := "WrappedDict-" ++ uuid4;
                _dict_class := dict_class; _tl := ∅ |}
    ∧ (∀ t, slot σ' c t = None ∧ context σ' c t = None)
    ∧ (∀ c' t, c' ≠ c →
         slot σ' c' t = slot σ c' t ∧ context σ' c' t = context σ c' t)
    ∧ mappings σ' = mappings σ
    ∧ instances σ' = instances σ.
Proof.
  exists (length (classes σ)). eexists. split; [reflexivity|].
  assert (Hnew : ∀ t, slot (wrap_dict dict_class uuid4 σ).2
                        (length (classes σ)) t = None).
  { intros t. unfold slot. simpl.
    rewrite lookup_app_r; [|done]. by rewrite Nat.sub_diag. }
  assert (Hold : ∀ c' t, c' ≠ length (classes σ) →
            slot (wrap_dict dict_class uuid4 σ).2 c' t = slot σ c' t).
  { intros c' t _. by apply slot_new_class. }
  split_and!; try done.
  - by apply lookup_ge_None.
  - simpl. rewrite lookup_app_r; [|done]. by rewrite Nat.sub_diag.
  - intros t. split; [done|]. unfold context. by rewrite Hnew.
  - intros c' t Hne. split; [by apply Hold|].
    unfold context. by rewrite Hold.
Qed.

(** ** Item assignment, length and iteration *)

Lemma __setitem___total σ t i c k v :
  wf_heap σ → is_inst σ i c →
  ∃ a σ1,
    _dict t i σ = (Return a, σ1)
    ∧ wf_heap σ1 ∧ slot σ1 c t = Some a
    ∧ mappings σ1 !! a = Some (default ∅ (context σ c t))
    ∧ instances σ1 = instances σ
    ∧ evolves nothing (of_thread t) σ σ1
    ∧ __setitem__ t i k v σ
      = (Return tt,
         (set_mapping a (<[k := v]> (default ∅ (context σ c t))) σ1).2).
Proof.
  intros Hwf Hi.
  destruct (_dict_eval σ t i c Hwf Hi)
    as (a & σ1 & Hd & Hwf1 & Hs1 & Hm1 & Hinst & Hev & _).
  exists a, σ1. split_and!; try done.
  unfold __setitem__. rewrite (bindM_Return _ _ _ _ _ Hd).
  by rewrite (bindM_Return _ _ _ _ _ (the_mapping_Some _ _ _ Hm1)).
Qed.

(** X2.  [ctx[key] = value] on a live instance always returns, and the
    calling thread's context becomes its old contents (empty if the thread
    had no mapping yet) with [key] set to [value]: [key] reads back as
    [value], every other key reads as before.  Mappings in other slots
    keep their contents and nothing is stored on any instance. *)
Theorem setitem_sets_one_key σ t i c key value :
  wf_heap σ → is_inst σ i c →
  ∃ σ',
    __setitem__ t i key value σ = (Return tt, σ')
    ∧ wf_heap σ'
    ∧ context σ' c t = Some (<[key := value]> (default ∅ (context σ c t)))
    ∧ (∀ m, context σ' c t = Some m →
         m !! key = Some value
         ∧ ∀ k, k ≠ key → m !! k = default ∅ (context σ c t) !! k)
    ∧ (∀ c' t' m, (c', t') ≠ (c, t) → context σ c' t' = Some m →
         context σ' c' t' = Some m)
    ∧ instances σ' = instances σ.
Proof.
  intros Hwf Hi.
  destruct (__setitem___total σ t i c key value Hwf Hi)
    as (a & σ1 & Hd & Hwf1 & Hs1 & Hm1 & Hinst & Hev & Hset).
  eexists. split; [exact Hset|].
  assert (Hctx : context (set_mapping a
            (<[key := value]> (default ∅ (context σ c t))) σ1).2 c t
          = Some (<[key := value]> (default ∅ (context σ c t)))).
  { apply context_set_mapping; [done|by eexists]. }
  split_and!.
  - by apply wf_set_mapping.
  - done.
  - intros m Hm. rewrite Hctx in Hm. injection Hm as <-.
    split; [by rewrite lookup_insert_eq|].
    intros k Hk. by rewrite lookup_insert_ne.
  - intros c' t' m Hne Hm.
    generalize (<[key := value]> (default ∅ (context σ c t))). intros d.
    unfold context in Hm |- *.
    destruct (slot σ c' t') as [a'|] eqn:Hs'; [|done].
    change (slot (set_mapping a d σ1).2 c' t') with (slot σ1 c' t').
    rewrite (ev_slot _ _ _ _ Hev _ _ _ Hs'). simpl.
    rewrite list_lookup_insert_ne.
    + by eapply evolves_nothing_mappings.
    + intros ->.
      destruct (wf_slot_inj _ Hwf1 _ _ _ _ _ Hs1
                  (ev_slot _ _ _ _ Hev _ _ _ Hs')) as [-> ->].
      done.
  - done.
Qed.

Lemma setitem_sets_one_key_witness :
  wf_heap heap_single ∧ is_inst heap_single 0 0
  ∧ context (__setitem__ 0 0 "b" 2%Z heap_single).2 0 0
    = Some (<["b" := 2%Z]> ctx_a1)
  ∧ context (__setitem__ 1 0 "b" 2%Z heap_single).2 0 1
    = Some {["b" := 2%Z]}.
Proof.
  assert (Hi : is_inst heap_single 0 0) by (eexists; split; reflexivity).
  split; [exact wf_heap_single|]. split; [exact Hi|].
  destruct (setitem_sets_one_key heap_single 0 0 0 "b" 2%Z wf_heap_single Hi)
    as (σ0 & Hset0 & _ & Hctx0 & _).
  destruct (setitem_sets_one_key heap_single 1 0 0 "b" 2%Z wf_heap_single Hi)
    as (σ1 & Hset1 & _ & Hctx1 & _).
  rewrite Hset0, Hset1. split; [exact Hctx0|exact Hctx1].
Defined.

Lemma __iter___total σ t i c :
  wf_heap σ → is_inst σ i c →
  ∃ a σ1,
    _dict t i σ = (Return a, σ1)
    ∧ wf_heap σ1 ∧ slot σ1 c t = Some a
    ∧ mappings σ1 !! a = Some (default ∅ (context σ c t))
    ∧ instances σ1 = instances σ
    ∧ evolves nothing (of_thread t) σ σ1
    ∧ __iter__ t i σ
      = (Return (elements (dom (default ∅ (context σ c t)))), σ1)
    ∧ __len__ t i σ = (Return (size (default ∅ (context σ c t))), σ1).
Proof.
  intros Hwf Hi.
  destruct (_dict_eval σ t i c Hwf Hi)
    as (a & σ1 & Hd & Hwf1 & Hs1 & Hm1 & Hinst & Hev & _).
  exists a, σ1. split_and!; try done.
  - unfold __iter__. rewrite (bindM_Return _ _ _ _ _ Hd).
    by rewrite (bindM_Return _ _ _ _ _ (the_mapping_Some _ _ _ Hm1)).
  - unfold __len__. rewrite (bindM_Return _ _ _ _ _ Hd).
    by rewrite (bindM_Return _ _ _ _ _ (the_mapping_Some _ _ _ Hm1)).
Qed.

(** X3.  [iter(ctx)] and [len(ctx)] on a live instance always return and
    agree: the keys come without repetition, they are exactly the keys of
    the calling thread's context, and [len] is their number.  Both leave
    the same heap: no mapping changes contents, nothing is stored on an
    instance, and a thread that had no mapping now has an empty one. *)
Theorem len_counts_the_keys_of_iter σ t i c :
  wf_heap σ → is_inst σ i c →
  ∃ ks σ',
    __iter__ t i σ = (Return ks, σ')
    ∧ __len__ t i σ = (Return (length ks), σ')
    ∧ NoDup ks
    ∧ (∀ k, k ∈ ks ↔ is_Some (default ∅ (context σ c t) !! k))
    ∧ context σ' c t = Some (default ∅ (context σ c t))
    ∧ (∀ a d, mappings σ !! a = Some d → mappings σ' !! a = Some d)
    ∧ instances σ' = instances σ.
Proof.
  intros Hwf Hi.
  destruct (__iter___total σ t i c Hwf Hi)
    as (a & σ1 & Hd & Hwf1 & Hs1 & Hm1 & Hinst & Hev & Hiter & Hlen).
  eexists _, σ1. split; [exact Hiter|]. split_and!.
  - rewrite Hlen. by rewrite <- size_dom.
  - apply NoDup_elements.
  - intros k. rewrite elem_of_elements. apply elem_of_dom.
  - unfold context. by rewrite Hs1.
  - intros a' d Hd'. by eapply evolves_nothing_mappings.
  - done.
Qed.

Lemma len_counts_the_keys_of_iter_witness :
  wf_heap heap_single ∧ is_inst heap_single 0 0
  ∧ ∃ ks σ',
      __iter__ 1 0 heap_single = (Return ks, σ')
      ∧ __len__ 1 0 heap_single = (Return (length ks), σ')
      ∧ context heap_single 0 1 = None
      ∧ context σ' 0 1 = Some ∅.
Proof.
  assert (Hi : is_inst heap_single 0 0) by (eexists; split; reflexivity).
  split; [exact wf_heap_single|]. split; [exact Hi|].
  destruct (len_counts_the_keys_of_iter heap_single 1 0 0 wf_heap_single Hi)
    as (ks & σ1 & Hiter & Hlen & _ & _ & Hctx & _).
  exists ks, σ1. split; [exact Hiter|]. split; [exact Hlen|].
  split; [reflexivity|exact Hctx].
Defined.

(** X4.  After [ctx1[key] = value], [len(ctx2)] through any instance of
    the same context type on the same thread is one more than the number
    of keys before when [key] was new, and that same number when [key]
    was already there. *)
Theorem len_after_setitem σ t i j c key value :
  wf_heap σ → is_inst σ i c → is_inst σ j c →
  ∃ σ',
    (__setitem__ t i key value ;;; __len__ t j) σ
    = (Return (match default ∅ (context σ c t) !! key with
               | Some _ => size (default ∅ (context σ c t))
               | None => S (size (default ∅ (context σ c t)))
               end), σ').
Proof.
  intros Hwf Hi Hj.
  destruct (__setitem___total σ t i c key value Hwf Hi)
    as (a & σ1 & Hd & Hwf1 & Hs1 & Hm1 & Hinst & Hev & Hset).
  set (m := default ∅ (context σ c t)) in *.
  set (σ2 := (set_mapping a (<[key := value]> m) σ1).2) in *.
  assert (Hwf2 : wf_heap σ2) by by apply wf_set_mapping.
  assert (Hj2 : is_inst σ2 j c).
  { destruct Hj as (o & Ho & Hc). exists o. split; [|done].
    unfold σ2. simpl. by rewrite Hinst. }
  destruct (__iter___total σ2 t j c Hwf2 Hj2)
    as (a2 & σ3 & _ & _ & _ & _ & _ & _ & _ & Hlen).
  assert (Hctx : context σ2 c t = Some (<[key := value]> m)).
  { apply context_set_mapping; [done|by eexists]. }
  rewrite Hctx in Hlen. simpl in Hlen.
  exists σ3. rewrite (bindM_Return _ _ _ _ _ Hset). rewrite Hlen.
  destruct (m !! key) as [v0|] eqn:Hk.
  - rewrite <- !size_dom, dom_insert_L.
    assert (Hin : key ∈ dom m) by (apply elem_of_dom; eauto).
    do 3 f_equal. apply subseteq_union_1_L.
    by apply singleton_subseteq_l.
  - by rewrite map_size_insert_None.
Qed.

Lemma len_after_setitem_witness :
  wf_heap heap_single ∧ is_inst heap_single 0 0
  ∧ ((__setitem__ 0 0 "b" 2%Z ;;; __len__ 0 0) heap_single).1 = Return 2
  ∧ ((__setitem__ 0 0 "a" 7%Z ;;; __len__ 0 0) heap_single).1 = Return 1.
Proof.
  assert (Hi : is_inst heap_single 0 0) by (eexists; split; reflexivity).
  split; [exact wf_heap_single|]. split; [exact Hi|].
  destruct (len_after_setitem heap_single 0 0 0 0 "b" 2%Z wf_heap_single
              Hi Hi) as (σ1 & H1).
  destruct (len_after_setitem heap_single 0 0 0 0 "a" 7%Z wf_heap_single
              Hi Hi) as (σ2 & H2).
  rewrite H1, H2. split; reflexivity.
Defined.

(** ** [__repr__] *)

(** X5.  For an instance of a class made by [wrap_dict] with random
    identifier [uuid4], after any program, [repr] on any thread always
    returns and shows the name [WrappedDict-uuid4] with the calling
    thread's own context (empty if that thread had no mapping yet); it
    changes no mapping's contents and stores nothing on an instance. *)
Theorem repr_shows_name_and_thread_context σ dict_class uuid4 c σ1 p i t :
  wf_heap σ → wrap_dict dict_class uuid4 σ = (Return c, σ1) →
  is_inst (run_ops p σ1).2 i c →
  ∃ σ3,
    __repr__ t i (run_ops p σ1).2
    = (Return ("WrappedDict-" ++ uuid4,
               default ∅ (context (run_ops p σ1).2 c t)), σ3)
    ∧ (∀ a d, mappings (run_ops p σ1).2 !! a = Some d →
              mappings σ3 !! a = Some d)
    ∧ instances σ3 = instances (run_ops p σ1).2.
Proof.
  intros Hwf Hwrap Hi. injection Hwrap as <- <-.
  assert (Hwf1 : wf_heap (wrap_dict dict_class uuid4 σ).2)
    by by apply wf_new_class.
  set (σ1 := (wrap_dict dict_class uuid4 σ).2) in *.
  assert (HC1 : classes σ1 !! length (classes σ)
                = Some {| cls_name := "WrappedDict-" ++ uuid4;
                          _dict_class := dict_class; _tl := ∅ |}).
  { unfold σ1. simpl. rewrite lookup_app_r; [|done]. by rewrite Nat.sub_diag. }
  destruct (ev_classes _ _ _ _ (evolves_run_ops p σ1 Hwf1) _ _ HC1)
    as (C2 & HC2 & Hname & _). simpl in Hname.
  pose proof (wf_run_ops p σ1 Hwf1) as Hwf2.
  destruct (_dict_eval _ t i _ Hwf2 Hi)
    as (a & σ3 & Hd & Hwf3 & Hs3 & Hm3 & Hinst & Hev & _).
  destruct Hi as (o & Ho & Hc).
  exists σ3. split_and!.
  - unfold __repr__.
    rewrite (bindM_Return _ _ _ _ _ (the_instance_Some _ _ _ Ho)).
    rewrite Hc.
    rewrite (bindM_Return _ _ _ _ _ (the_class_Some _ _ _ HC2)).
    rewrite (bindM_Return _ _ _ _ _ Hd).
    rewrite (bindM_Return _ _ _ _ _ (the_mapping_Some _ _ _ Hm3)).
    unfold ret. by rewrite Hname.
  - intros a' d Hd'. by eapply evolves_nothing_mappings.
  - done.
Qed.

Lemma repr_shows_name_and_thread_context_witness :
  wf_heap empty_heap
  ∧ (__repr__ 1 0
       (run_ops [(0, op_construct 0 [] ctx_a1)]
          (wrap_dict DictClass "0001" empty_heap).2).2).1
    = Return ("WrappedDict-0001", ∅).
Proof.
  split; [exact wf_empty_heap|].
  destruct (repr_shows_name_and_thread_context empty_heap DictClass "0001"
              0 (wrap_dict DictClass "0001" empty_heap).2
              [(0, op_construct 0 [] ctx_a1)] 0 1 wf_empty_heap eq_refl)
    as (σ3 & Hrepr & _).
  { eexists. split; reflexivity. }
  rewrite Hrepr. reflexivity.
Defined.

(** ** A name the mapping does not have *)

(** X6.  Looking up, on a live instance, a name that normal lookup does
    not find (it is not in [own_attrs] and not stored on the instance) and
    that is not an attribute of the mapping of the instance's backing
    class either raises [AttributeError] for that name.  Nothing is stored
    on the instance and no mapping changes contents; but [self._dict] was
    evaluated first, so the calling thread's slot is filled afterwards
    even if it was empty before. *)
Theorem getattr_of_unknown_name_raises σ t i o C name :
  wf_heap σ → instances σ !! i = Some o →
  classes σ !! inst_class o = Some C →
  inst_dict o !! name = None → name ∉ own_attrs →
  name ∉ mapping_attrs (_dict_class C) →
  ∃ σ',
    getattr t i name σ = (Raise (AttributeError name), σ')
    ∧ wf_heap σ'
    ∧ instances σ' = instances σ
    ∧ context σ' (inst_class o) t
      = Some (default ∅ (context σ (inst_class o) t))
    ∧ (∀ a d, mappings σ !! a = Some d → mappings σ' !! a = Some d)
    ∧ (is_Some (slot σ (inst_class o) t) → σ' = σ).
Proof.
  intros Hwf Ho HC Hfree _ Hname.
  destruct (_dict_eval σ t i (inst_class o) Hwf)
    as (a & σ1 & Hd & Hwf1 & Hs1 & Hm1 & Hinst & Hev & Hsame & _).
  { by exists o. }
  destruct (ev_classes _ _ _ _ Hev _ _ HC) as (C1 & HC1 & _ & Hdc).
  exists σ1. split_and!; try done.
  - unfold getattr.
    rewrite (bindM_Return _ _ _ _ _ (the_instance_Some _ _ _ Ho)).
    rewrite Hfree. unfold __getattr__.
    rewrite (bindM_Return _ _ _ _ _ Hd).
    erewrite bindM_Return; [|apply the_instance_Some; by rewrite Hinst].
    rewrite (bindM_Return _ _ _ _ _ (the_class_Some _ _ _ HC1)).
    rewrite Hdc. by rewrite bool_decide_eq_false_2.
  - unfold context. by rewrite Hs1.
  - intros a' d Hd'. by eapply evolves_nothing_mappings.
Qed.

Lemma getattr_of_unknown_name_raises_witness :
  wf_heap heap_single
  ∧ slot heap_single 0 1 = None
  ∧ ("no_such_method" ∉ own_attrs)
  ∧ ("no_such_method" ∉ mapping_attrs DictClass)
  ∧ (getattr 1 0 "no_such_method" heap_single).1
    = Raise (AttributeError "no_such_method")
  ∧ context (getattr 1 0 "no_such_method" heap_single).2 0 1 = Some ∅.
Proof.
  assert (Hown : "no_such_method" ∉ own_attrs).
  { intros H. apply (bool_decide_pack _) in H. by vm_compute in H. }
  assert (Hmap : "no_such_method" ∉ mapping_attrs DictClass).
  { intros H. apply (bool_decide_pack _) in H. by vm_compute in H. }
  split; [exact wf_heap_single|]. split; [reflexivity|].
  split; [exact Hown|]. split; [exact Hmap|].
  destruct (getattr_of_unknown_name_raises heap_single 1 0
              {| inst_class := 0; inst_dict := ∅ |}
              {| cls_name := "WrappedDict-0001"; _dict_class := DictClass;
                 _tl := {[0 := 0]} |} "no_such_method"
              wf_heap_single eq_refl eq_refl eq_refl Hown Hmap)
    as (σ1 & Hget & _ & _ & Hctx & _).
  rewrite Hget. split; [reflexivity|exact Hctx].
Defined.

(** ** Construction, further *)

Lemma context_of_construct_no_args σ t c C kw :
  wf_heap σ → classes σ !! c = Some C → "self" ∉ dom kw →
  ∃ σ1,
    construct t c [] kw σ = (Return (length (instances σ)), σ1)
    ∧ wf_heap σ1
    ∧ classes σ1 !! c ≠ None
    ∧ context σ1 c t = Some (kw ∪ default ∅ (context σ c t)).
Proof.
  intros Hwf HC Hkw.
  destruct (construct_no_args σ t c C kw Hwf HC Hkw)
    as (a & m & σ1 & Hc & Hwf1 & Hs1 & Hm1 & Hold & _).
  exists σ1. split_and!; try done.
  - apply slot_Some in Hs1 as (C1 & -> & _). done.
  - unfold context at 1. rewrite Hs1, Hm1. do 2 f_equal.
    unfold context. destruct (slot σ c t) as [a0|].
    + destruct Hold as [-> ->]. done.
    + by destruct Hold as [_ ->].
Qed.

(** X8.  Constructing instances only updates, for keywords that the call
    of [__init__] accepts (none named [self]): with the thread's context
    holding [m] (empty if the thread has no mapping yet), [T( **kw1)]
    leaves [m] updated by [kw1], a following [T( **kw2)] leaves that
    updated by [kw2], the same keywords a second time change nothing, and
    [T()] leaves exactly [m]. *)
Theorem construct_calls_accumulate σ t c C kw1 kw2 :
  wf_heap σ → classes σ !! c = Some C →
  "self" ∉ dom kw1 → "self" ∉ dom kw2 →
  ∃ i1 i2 σ1 σ2,
    construct t c [] kw1 σ = (Return i1, σ1)
    ∧ context σ1 c t = Some (kw1 ∪ default ∅ (context σ c t))
    ∧ construct t c [] kw2 σ1 = (Return i2, σ2)
    ∧ context σ2 c t = Some (kw2 ∪ (kw1 ∪ default ∅ (context σ c t)))
    ∧ (kw2 = kw1 → context σ2 c t = context σ1 c t)
    ∧ (kw1 = ∅ → context σ1 c t = Some (default ∅ (context σ c t))).
Proof.
  intros Hwf HC Hkw1 Hkw2.
  destruct (context_of_construct_no_args σ t c C kw1 Hwf HC Hkw1)
    as (σ1 & Hc1 & Hwf1 & HC1 & Hctx1).
  destruct (classes σ1 !! c) as [C1|] eqn:HC1'; [|done].
  destruct (context_of_construct_no_args σ1 t c C1 kw2 Hwf1 HC1' Hkw2)
    as (σ2 & Hc2 & Hwf2 & _ & Hctx2).
  rewrite Hctx1 in Hctx2. simpl in Hctx2.
  eexists _, _, σ1, σ2. split_and!; try done.
  - intros ->. rewrite Hctx1, Hctx2. f_equal.
    by rewrite (assoc_L (∪)), (idemp_L (∪)).
  - intros ->. rewrite Hctx1. by rewrite (left_id_L ∅ (∪)).
Qed.

Lemma construct_calls_accumulate_witness :
  wf_heap heap_single
  ∧ ("self" ∉ dom kw_b2) ∧ ("self" ∉ dom kw_c3)
  ∧ ∃ σ1 σ2,
      (construct 1 0 [] kw_b2 heap_single).2 = σ1
      ∧ context σ1 0 1 = Some (kw_b2 ∪ ∅)
      ∧ (construct 1 0 [] kw_c3 σ1).2 = σ2
      ∧ context σ2 0 1 = Some (kw_c3 ∪ (kw_b2 ∪ ∅)).
Proof.
  assert (Hkw1 : "self" ∉ dom kw_b2) by (by apply not_elem_of_dom).
  assert (Hkw2 : "self" ∉ dom kw_c3) by (by apply not_elem_of_dom).
  split; [exact wf_heap_single|]. split; [exact Hkw1|]. split; [exact Hkw2|].
  destruct (construct_calls_accumulate heap_single 1 0 _ kw_b2 kw_c3
              wf_heap_single eq_refl Hkw1 Hkw2)
    as (i1 & i2 & σ1 & σ2 & H1 & Hctx1 & H2 & Hctx2 & _).
  exists σ1, σ2. rewrite H1. split; [reflexivity|]. split; [exact Hctx1|].
  rewrite H2. split; [reflexivity|exact Hctx2].
Defined.

(** X7.  Two or more positional arguments, the first of which is not an
    instance of the same context type, with keywords that the call of
    [__init__] accepts (none named [self]), make the constructor raise
    [TypeError] (they all reach [update], which takes one).  The thread's
    context keeps its contents, though the thread's mapping has been made
    if it was missing.  With a same-type instance first the extra
    arguments are never looked at (see C4). *)
Theorem construct_with_extra_positionals_raises σ t c C a1 a2 rest kw :
  wf_heap σ → classes σ !! c = Some C → "self" ∉ dom kw →
  (∀ j, a1 = AInst j → ∃ c', is_inst σ j c' ∧ c' ≠ c) →
  ∃ σ',
    construct t c (a1 :: a2 :: rest) kw σ = (Raise TypeError, σ')
    ∧ wf_heap σ'
    ∧ context σ' c t = Some (default ∅ (context σ c t))
    ∧ (∀ a d, mappings σ !! a = Some d → mappings σ' !! a = Some d).
Proof.
  intros Hwf HC Hkw Ha1.
  assert (Hwf0 : wf_heap (with_new_instance σ c))
    by (apply wf_new_instance; eauto).
  destruct (_dict_eval (with_new_instance σ c) t (length (instances σ)) c
              Hwf0 (self_is_inst σ c))
    as (a & σ1 & Hd & Hwf1 & Hs1 & Hm1 & Hinst & Hev & _).
  exists σ1. split_and!; try done.
  - unfold construct.
    rewrite (bindM_Return _ _ _ _ _ (the_class_Some _ _ _ HC)).
    change (bindM (new_instance ?o) ?k σ)
      with (k (length (instances σ)) (with_new_instance σ c)).
    cbv beta. rewrite bool_decide_eq_false_2; [|done].
    apply bindM_Raise. unfold __init__.
    destruct a1 as [src|l|j].
    + erewrite bindM_Return; [|reflexivity]. cbv beta iota.
      by rewrite (bindM_Return _ _ _ _ _ Hd).
    + erewrite bindM_Return; [|reflexivity]. cbv beta iota.
      by rewrite (bindM_Return _ _ _ _ _ Hd).
    + destruct (Ha1 j eq_refl) as (c' & Hj & Hne).
      erewrite bindM_Return;
        [|by eapply isinstance_of_self_eval;
             [apply old_is_inst|apply self_is_inst]].
      rewrite bool_decide_eq_false_2; [|done].
      by rewrite (bindM_Return _ _ _ _ _ Hd).
  - unfold context at 1. by rewrite Hs1.
  - intros a' d Hd'.
    by apply (evolves_nothing_mappings _ _ _ _ _ Hev).
Qed.

Lemma construct_with_extra_positionals_raises_witness :
  wf_heap heap_single
  ∧ ("self" ∉ dom (∅ : pydict))
  ∧ (construct 0 0 [AMap kw_b2; AMap kw_c3] ∅ heap_single).1
    = Raise TypeError
  ∧ context (construct 0 0 [AMap kw_b2; AMap kw_c3] ∅ heap_single).2 0 0
    = Some ctx_a1.
Proof.
  assert (Hkw : "self" ∉ dom (∅ : pydict)) by (by apply not_elem_of_dom).
  split; [exact wf_heap_single|]. split; [exact Hkw|].
  destruct (construct_with_extra_positionals_raises heap_single 0 0 _
              (AMap kw_b2) (AMap kw_c3) [] ∅ wf_heap_single eq_refl Hkw)
    as (σ1 & Hc & _ & Hctx & _).
  { intros j Hj. discriminate Hj. }
  rewrite Hc. split; [reflexivity|exact Hctx].
Defined.

(** ** The scoped binder, in general *)

Lemma is_inst_unique σ i c c' : is_inst σ i c → is_inst σ i c' → c = c'.
Proof. intros (o & Ho & <-) (o' & Ho' & <-). congruence. Qed.

Section slot_after_construct.
Context (P Q : clsid → tid → Prop) (t : tid).
Hypothesis HQ : ∀ c, Q c t.

Lemma keeps___init___slot self args kw σ c :
  wf_heap σ → (∀ c, is_inst σ self c → P c t) → is_inst σ self c →
  keeps P Q (__init__ t self args kw) σ (λ _ σ', is_Some (slot σ' c t)).
Proof.
  intros Hwf HP Hself. unfold __init__.
  eapply keeps_bind with (Φ := λ _ σ', σ' = σ).
  { destruct args as [|[?|?|x] ?]; try (by apply keeps_ret).
    by apply keeps_isinstance_of_self. }
  intros same σ1 Hwf1 _ ->.
  assert (Hboth : ∀ args',
    keeps P Q (let* d := _dict t self in dict_update t d args' kw) σ
      (λ _ σ', is_Some (slot σ' c t))).
  { intros args'.
    eapply keeps_bind; [by apply keeps__dict|].
    intros d σ2 Hwf2 _ (c' & Hi & Hs & _).
    rewrite <- (is_inst_unique _ _ _ _ Hself Hi) in Hs.
    eapply keeps_mono.
    { eapply keeps_dict_update with (c0 := c) (t0 := t); [done..|auto|done]. }
    intros _ σ3 _ Hev3 _. rewrite (ev_slot _ _ _ _ Hev3 _ _ _ Hs). eauto. }
  destruct same; apply Hboth.
Qed.

Lemma keeps_construct_slot c args kw σ :
  wf_heap σ → P c t →
  keeps P Q (construct t c args kw) σ (λ _ σ', is_Some (slot σ' c t)).
Proof.
  intros Hwf HP. unfold construct.
  eapply keeps_bind; [by apply keeps_the_class|].
  intros C σ1 Hwf1 _ [-> HC].
  eapply keeps_bind with (Φ := λ i σ', i = length (instances σ)
                                       ∧ σ' = with_new_instance σ c).
  { split_and!; [by apply wf_new_instance|by apply evolves_new_instance|].
    by intros i [= <-]. }
  intros self σ2 Hwf2 _ [-> ->].
  case_bool_decide; [by apply keeps_raise|].
  eapply keeps_bind.
  { apply keeps___init___slot; [done| |apply self_is_inst].
    intros c' Hc'. by rewrite (is_inst_unique _ _ _ _ Hc' (self_is_inst σ c)). }
  intros x σ3 Hwf3 _ Hs. by apply keeps_ret.
Qed.
End slot_after_construct.

(** Entry returns only for a generated class, and then the calling
    thread's slot of that class is filled. *)
Lemma tmp_bind_enter_fills_slot σ t logger tmp_values fr tmp σ1 :
  wf_heap σ →
  tmp_bind_enter t logger tmp_values σ = (Return (fr, tmp), σ1) →
  ∃ c a,
    _current_context_class logger = Wrapped c
    ∧ f_logger fr = logger
    ∧ wf_heap σ1
    ∧ slot σ1 c t = Some a.
Proof.
  intros Hwf. unfold tmp_bind_enter.
  case_bool_decide; [done|].
  destruct (_current_context_class logger) as [dc|c] eqn:Hcls; [done|].
  simpl.
  destruct (keeps_context_copy anything anything t (λ _, Logic.I) logger σ Hwf)
    as (Hwfa & _ & _).
  unfold bindM at 1.
  destruct (context_copy t logger σ) as [[saved|e] σa]; [|done].
  simpl in Hwfa. unfold bind. rewrite Hcls.
  destruct (keeps_construct_slot anything anything t (λ _, Logic.I) c
              [context_arg (_context logger)] tmp_values σa Hwfa Logic.I)
    as (Hwfb & _ & Hslot).
  unfold bindM.
  destruct (construct t c [context_arg (_context logger)] tmp_values σa)
    as [[i|e] σb]; [|done].
  unfold ret. intros [= <- <- <-]. simpl in *.
  destruct (Hslot i eq_refl) as [a Ha].
  exists c, a. by split_and!.
Qed.

(** X10.  Whenever entry has returned and the block returns, whatever
    the logger's context object is and whatever calls the block made on
    any threads, the [with] statement returns: the restore finds the
    calling thread's mapping and leaves it holding exactly the snapshot
    taken at entry, in the heap the block left. *)
Theorem tmp_bind_normal_exit_leaves_the_snapshot σ t logger tmp_values
    (block : bound_logger → list (tid * op)) fr tmp σ1 σ2 :
  wf_heap σ →
  tmp_bind_enter t logger tmp_values σ = (Return (fr, tmp), σ1) →
  run_ops (block tmp) σ1 = (Return tt, σ2) →
  ∃ c a,
    _current_context_class logger = Wrapped c
    ∧ slot σ1 c t = Some a
    ∧ with_tmp_bind t logger tmp_values (λ l, run_ops (block l)) σ
      = (Return tt, (set_mapping a (f_saved fr) σ2).2)
    ∧ context (set_mapping a (f_saved fr) σ2).2 c t = Some (f_saved fr).
Proof.
  intros Hwf He Hblock.
  destruct (tmp_bind_enter_fills_slot _ _ _ _ _ _ _ Hwf He)
    as (c & a & Hcls & Hfr & Hwf1 & Hs1).
  pose proof (evolves_run_ops (block tmp) σ1 Hwf1) as Hev.
  pose proof (wf_run_ops (block tmp) σ1 Hwf1) as Hwf2.
  rewrite Hblock in Hev, Hwf2. simpl in Hev, Hwf2.
  assert (Hs2 : slot σ2 c t = Some a) by by apply (ev_slot _ _ _ _ Hev).
  pose proof (wf_slot_valid _ Hwf2 _ _ _ Hs2) as Hm2.
  exists c, a. split_and!; try done.
  - eapply (with_tmp_bind_block_returns _ _ _ (λ l, run_ops (block l))
              _ _ _ _ _ _ _ _ He Hblock); [|done..].
    by rewrite Hfr.
  - by apply context_set_mapping.
Qed.

Lemma tmp_bind_normal_exit_leaves_the_snapshot_witness :
  wf_heap heap_shared
  ∧ ∃ fr tmp σ1 σ2,
      tmp_bind_enter 0 the_logger kw_b2 heap_shared = (Return (fr, tmp), σ1)
      ∧ run_ops [(0, op_bind tmp kw_c3)] σ1 = (Return tt, σ2)
      ∧ context (with_tmp_bind 0 the_logger kw_b2
                   (λ l, run_ops [(0, op_bind l kw_c3)]) heap_shared).2 0 0
        = Some (f_saved fr).
Proof.
  split; [exact wf_heap_shared|].
  eexists _, _, _, _. split; [vm_compute; reflexivity|].
  split; [vm_compute; reflexivity|].
  match goal with
  | |- context [Some (f_saved ?fr)] =>
      destruct (tmp_bind_normal_exit_leaves_the_snapshot heap_shared 0
                  the_logger kw_b2 (λ l, [(0, op_bind l kw_c3)]) fr _ _ _
                  wf_heap_shared eq_refl eq_refl)
        as (c & a & Hcls & _ & Hwith & Hctx)
  end.
  injection Hcls as <-. rewrite Hwith. exact Hctx.
Defined.

(** Entry for a logger in thread-local mode whose stored [copy], if any,
    is bound to the calling thread's mapping: the snapshot is the thread's
    context and the yielded logger holds a new instance with nothing
    stored on it. *)
Lemma tmp_bind_enter_local σ t c i o a m0 tmp_values :
  wf_heap σ → instances σ !! i = Some o → inst_class o = c →
  slot σ c t = Some a → mappings σ !! a = Some m0 →
  (∀ m, inst_dict o !! "copy" = Some m → im_self m = a) →
  "logger" ∉ dom tmp_values → "self" ∉ dom tmp_values →
  ∃ i' σ1,
    tmp_bind_enter t
      {| _current_context_class := Wrapped c; _context := OInst i |}
      tmp_values σ
    = (Return ({| f_logger := {| _current_context_class := Wrapped c;
                                 _context := OInst i |};
                  f_saved := m0 |},
               {| _current_context_class := Wrapped c;
                  _context := OInst i' |}), σ1)
    ∧ wf_heap σ1
    ∧ instances σ1 !! i' = Some {| inst_class := c; inst_dict := ∅ |}
    ∧ slot σ1 c t = Some a
    ∧ mappings σ1 !! a = Some (tmp_values ∪ m0).
Proof.
  intros Hwf Ho Hc Hs Hm Hlocal Hlogger Hself.
  destruct (keeps_tmp_bind_enter anything anything t (λ _, Logic.I)
              {| _current_context_class := Wrapped c; _context := OInst i |}
              tmp_values σ Hwf (λ _ _, Logic.I)) as (Hwf1 & _ & _).
  destruct (context_copy_eval σ t c i o a m0 Hwf Ho Hc Hs Hm)
    as (saved & σc & Hcopy & Hcls & Hmaps & Hi & Hsaved).
  rewrite (Hsaved Hlocal) in Hcopy.
  assert (Hsc : slot σc c t = Some a) by (unfold slot; by rewrite Hcls).
  assert (Hmc : mappings σc !! a = Some m0) by by rewrite Hmaps.
  exists (length (instances σc)). eexists.
  revert Hwf1. unfold tmp_bind_enter. simpl.
  rewrite bool_decide_eq_false_2; [|done].
  rewrite (bindM_Return _ _ _ _ _ Hcopy). unfold bind. simpl.
  erewrite bindM_Return.
  2:{ erewrite bindM_Return; [reflexivity|].
      rewrite (construct_unfold _ _ _ _ Hsc); [|done].
      erewrite bindM_Return; [reflexivity|].
      erewrite __init___same_type; [|done..].
      by eapply dict_update_nil. }
  intros Hwf1. split; [done|]. split; [done|].
  split; [apply lookup_self|]. split; [done|].
  simpl. apply list_lookup_insert_eq. by eapply lookup_lt_Some.
Qed.

(** X11.  Scopes nest on one thread.  With the thread's context holding
    [m0], the logger's stored [copy], if any, bound to this thread's
    mapping, and no keyword named [logger] or [self]: inside [tmp_bind(logger, **kw1)] and then
    [tmp_bind(l1, **kw2)] on the yielded logger the context is [m0]
    updated by [kw1] and then by [kw2]; when the inner block returns the
    inner scope leaves [m0] updated by [kw1], and the outer scope then
    leaves [m0]. *)
Theorem tmp_bind_scopes_nest σ t c i o kw1 kw2 m0
    (block : bound_logger → bound_logger → list (tid * op)) :
  wf_heap σ → instances σ !! i = Some o → inst_class o = c →
  context σ c t = Some m0 →
  (∀ m, inst_dict o !! "copy" = Some m → slot σ c t = Some (im_self m)) →
  "logger" ∉ dom kw1 → "self" ∉ dom kw1 →
  "logger" ∉ dom kw2 → "self" ∉ dom kw2 →
  ∃ fr1 l1 σ1 fr2 l2 σ2,
    tmp_bind_enter t
      {| _current_context_class := Wrapped c; _context := OInst i |}
      kw1 σ = (Return (fr1, l1), σ1)
    ∧ tmp_bind_enter t l1 kw2 σ1 = (Return (fr2, l2), σ2)
    ∧ context σ2 c t = Some (kw2 ∪ (kw1 ∪ m0))
    ∧ ∀ σ3, run_ops (block l1 l2) σ2 = (Return tt, σ3) →
        ∃ σ4 σ5,
          with_tmp_bind t l1 kw2 (λ l, run_ops (block l1 l)) σ1
          = (Return tt, σ4)
          ∧ context σ4 c t = Some (kw1 ∪ m0)
          ∧ with_tmp_bind t
              {| _current_context_class := Wrapped c; _context := OInst i |}
              kw1
              (λ l, with_tmp_bind t l kw2 (λ l', run_ops (block l l'))) σ
            = (Return tt, σ5)
          ∧ context σ5 c t = Some m0.
Proof.
  intros Hwf Ho Hc Hctx Hlocal Hl1 Hs1' Hl2 Hs2'. unfold context in Hctx.
  destruct (slot σ c t) as [a|] eqn:Hs; [|done].
  assert (Hlocal' : ∀ m, inst_dict o !! "copy" = Some m → im_self m = a).
  { intros m Hm. specialize (Hlocal m Hm). congruence. }
  destruct (tmp_bind_enter_local σ t c i o a m0 kw1 Hwf Ho Hc Hs Hctx Hlocal'
              Hl1 Hs1')
    as (i1 & σ1 & He1 & Hwf1 & Hi1 & Hs1 & Hm1).
  assert (Hnone : ∀ m : bound_method,
            inst_dict {| inst_class := c; inst_dict := ∅ |} !! "copy" = Some m →
            im_self m = a) by (intros m Hm; discriminate Hm).
  destruct (tmp_bind_enter_local σ1 t c i1 _ a (kw1 ∪ m0) kw2 Hwf1 Hi1
              eq_refl Hs1 Hm1 Hnone Hl2 Hs2')
    as (i2 & σ2 & He2 & Hwf2 & Hi2 & Hs2 & Hm2).
  eexists _, _, σ1, _, _, σ2. split; [exact He1|]. split; [exact He2|].
  split; [unfold context; by rewrite Hs2|].
  intros σ3 Hblock.
  pose proof (evolves_run_ops
    (block {| _current_context_class := Wrapped c; _context := OInst i1 |}
           {| _current_context_class := Wrapped c; _context := OInst i2 |})
    σ2 Hwf2) as Hev.
  pose proof (wf_run_ops
    (block {| _current_context_class := Wrapped c; _context := OInst i1 |}
           {| _current_context_class := Wrapped c; _context := OInst i2 |})
    σ2 Hwf2) as Hwf3.
  rewrite Hblock in Hev, Hwf3. simpl in Hev, Hwf3.
  assert (Hs3 : slot σ3 c t = Some a) by by apply (ev_slot _ _ _ _ Hev).
  pose proof (wf_slot_valid _ Hwf3 _ _ _ Hs3) as Hm3.
  assert (Hinner :
    with_tmp_bind t {| _current_context_class := Wrapped c;
                       _context := OInst i1 |} kw2
      (λ l, run_ops (block {| _current_context_class := Wrapped c;
                              _context := OInst i1 |} l)) σ1
    = (Return tt, (set_mapping a (kw1 ∪ m0) σ3).2)).
  { by eapply (with_tmp_bind_block_returns _ _ _ _ _ _ _ _ _ _ _ _ He2
                 Hblock). }
  exists (set_mapping a (kw1 ∪ m0) σ3).2,
    (set_mapping a m0 (set_mapping a (kw1 ∪ m0) σ3).2).2.
  split; [exact Hinner|].
  split; [by apply context_set_mapping|].
  split.
  - eapply (with_tmp_bind_block_returns _ _ _
              (λ l, with_tmp_bind t l kw2 (λ l', run_ops (block l l')))
              _ _ _ _ _ _ _ _ He1 Hinner); [done|exact Hs3|].
    simpl. apply lookup_lt_is_Some. rewrite length_insert.
    by apply lookup_lt_is_Some.
  - apply context_set_mapping; [exact Hs3|].
    simpl. apply lookup_lt_is_Some. rewrite length_insert.
    by apply lookup_lt_is_Some.
Qed.

Lemma tmp_bind_scopes_nest_witness :
  wf_heap heap_single ∧ context heap_single 0 0 = Some ctx_a1
  ∧ ("logger" ∉ dom kw_b2) ∧ ("self" ∉ dom kw_b2)
  ∧ ("logger" ∉ dom kw_c3) ∧ ("self" ∉ dom kw_c3)
  ∧ context (with_tmp_bind 0 the_logger kw_b2
               (λ l, with_tmp_bind 0 l kw_c3
                       (λ l', run_ops [(0, op_setitem 0 "d" 4%Z)]))
               heap_single).2 0 0
    = Some ctx_a1.
Proof.
  assert (Hl1 : "logger" ∉ dom kw_b2) by (by apply not_elem_of_dom).
  assert (Hs1 : "self" ∉ dom kw_b2) by (by apply not_elem_of_dom).
  assert (Hl2 : "logger" ∉ dom kw_c3) by (by apply not_elem_of_dom).
  assert (Hs2 : "self" ∉ dom kw_c3) by (by apply not_elem_of_dom).
  split; [exact wf_heap_single|]. split; [reflexivity|].
  split; [exact Hl1|]. split; [exact Hs1|].
  split; [exact Hl2|]. split; [exact Hs2|].
  assert (Hlocal : ∀ m : bound_method,
            inst_dict {| inst_class := 0; inst_dict := ∅ |} !! "copy" = Some m →
            slot heap_single 0 0 = Some (im_self m))
    by (intros m Hm; discriminate Hm).
  destruct (tmp_bind_scopes_nest heap_single 0 0 0
              {| inst_class := 0; inst_dict := ∅ |} kw_b2 kw_c3 ctx_a1
              (λ _ _, [(0, op_setitem 0 "d" 4%Z)])
              wf_heap_single eq_refl eq_refl eq_refl Hlocal Hl1 Hs1 Hl2 Hs2)
    as (fr1 & l1 & σ1 & fr2 & l2 & σ2 & He1 & He2 & _ & Hexit).
  vm_compute in He1. injection He1 as <- <- <-.
  vm_compute in He2. injection He2 as <- <- <-.
  destruct (Hexit _ eq_refl) as (σ4 & σ5 & _ & _ & Houter & Hctx).
  unfold the_logger. rewrite Houter. exact Hctx.
Defined.

(** ** A logger not yet converted to thread-local storage *)

(** X12.  The case the docstring of [tmp_bind] warns about: the logger's
    context class is a generated class but its context is still a plain
    mapping [m].  With no keyword named [logger] or [self], the snapshot
    is [m], not the thread's context [m1]: inside the scope the thread's context is [m1] updated by [m] and by
    the temporary values, and after a normal exit it is exactly [m], so
    the keys the thread had before and that [m] lacks are gone. *)
Theorem tmp_bind_on_unconverted_logger σ t c dc m a m1 tmp_values
    (block : bound_logger → list (tid * op)) :
  wf_heap σ → slot σ c t = Some a → mappings σ !! a = Some m1 →
  "logger" ∉ dom tmp_values → "self" ∉ dom tmp_values →
  ∃ fr tmp σ1,
    tmp_bind_enter t
      {| _current_context_class := Wrapped c; _context := OPlain dc m |}
      tmp_values σ = (Return (fr, tmp), σ1)
    ∧ f_saved fr = m
    ∧ context σ1 c t = Some (tmp_values ∪ (m ∪ m1))
    ∧ ∀ σ2, run_ops (block tmp) σ1 = (Return tt, σ2) →
        ∃ σ3,
          with_tmp_bind t
            {| _current_context_class := Wrapped c;
               _context := OPlain dc m |}
            tmp_values (λ l, run_ops (block l)) σ = (Return tt, σ3)
          ∧ context σ3 c t = Some m
          ∧ ∀ k, m !! k = None → ∀ d, context σ3 c t = Some d → d !! k = None.
Proof.
  intros Hwf Hs Hm Hlogger Hself.
  destruct (keeps_tmp_bind_enter anything anything t (λ _, Logic.I)
              {| _current_context_class := Wrapped c;
                 _context := OPlain dc m |}
              tmp_values σ Hwf (λ _ _, Logic.I)) as (Hwf1 & _ & _).
  assert (He : tmp_bind_enter t
      {| _current_context_class := Wrapped c; _context := OPlain dc m |}
      tmp_values σ
    = (Return ({| f_logger := {| _current_context_class := Wrapped c;
                                 _context := OPlain dc m |};
                  f_saved := m |},
               {| _current_context_class := Wrapped c;
                  _context := OInst (length (instances σ)) |}),
       (set_mapping a (tmp_values ∪ (m ∪ m1)) (with_new_instance σ c)).2)).
  { assert (Hbind : bind t
        {| _current_context_class := Wrapped c; _context := OPlain dc m |}
        tmp_values σ
      = (Return {| _current_context_class := Wrapped c;
                   _context := OInst (length (instances σ)) |},
         (set_mapping a (tmp_values ∪ (m ∪ m1))
            (with_new_instance σ c)).2)).
    { unfold bind. cbn [_current_context_class _context context_arg].
      erewrite bindM_Return; [reflexivity|].
      rewrite (construct_unfold _ _ _ _ Hs); [|done].
      erewrite bindM_Return; [reflexivity|].
      erewrite __init___forward; [|done..].
      by eapply dict_update_map. }
    unfold tmp_bind_enter, context_copy.
    rewrite bool_decide_eq_false_2; [|done].
    cbn [negb issubclass_wrapper _current_context_class _context].
    erewrite bindM_Return; [|reflexivity].
    by rewrite (bindM_Return _ _ _ _ _ Hbind). }
  rewrite He in Hwf1.
  change (wf_heap (set_mapping a (tmp_values ∪ (m ∪ m1))
                     (with_new_instance σ c)).2) in Hwf1.
  eexists _, _, _. split; [exact He|]. split; [done|].
  assert (Hs1 : slot (set_mapping a (tmp_values ∪ (m ∪ m1))
                        (with_new_instance σ c)).2 c t = Some a) by done.
  split; [apply context_set_mapping; [done|by eexists]|].
  intros σ2 Hblock.
  pose proof (evolves_run_ops (block {| _current_context_class := Wrapped c;
      _context := OInst (length (instances σ)) |}) _ Hwf1) as Hev.
  pose proof (wf_run_ops (block {| _current_context_class := Wrapped c;
      _context := OInst (length (instances σ)) |}) _ Hwf1) as Hwf2.
  rewrite Hblock in Hev, Hwf2.
  change (evolves anything anything
            (set_mapping a (tmp_values ∪ (m ∪ m1)) (with_new_instance σ c)).2
            σ2) in Hev.
  change (wf_heap σ2) in Hwf2.
  assert (Hs2 : slot σ2 c t = Some a) by by apply (ev_slot _ _ _ _ Hev).
  pose proof (wf_slot_valid _ Hwf2 _ _ _ Hs2) as Hm2.
  assert (Hctx : context (set_mapping a m σ2).2 c t = Some m)
    by by apply context_set_mapping.
  exists (set_mapping a m σ2).2. split_and!.
  - by eapply (with_tmp_bind_block_returns _ _ _ (λ l, run_ops (block l))
                 _ _ _ _ _ _ _ _ He Hblock).
  - done.
  - intros k Hk d Hd. rewrite Hctx in Hd. by injection Hd as <-.
Qed.

Lemma tmp_bind_on_unconverted_logger_witness :
  wf_heap heap_single ∧ context heap_single 0 0 = Some ctx_a1
  ∧ ("logger" ∉ dom kw_b2) ∧ ("self" ∉ dom kw_b2)
  ∧ context (with_tmp_bind 0
               {| _current_context_class := Wrapped 0;
                  _context := OPlain DictClass ctx_z9 |}
               kw_b2 (λ l, run_ops [(0, op_bind l kw_c3)]) heap_single).2 0 0
    = Some ctx_z9.
Proof.
  assert (Hlogger : "logger" ∉ dom kw_b2) by (by apply not_elem_of_dom).
  assert (Hself : "self" ∉ dom kw_b2) by (by apply not_elem_of_dom).
  split; [exact wf_heap_single|]. split; [reflexivity|].
  split; [exact Hlogger|]. split; [exact Hself|].
  destruct (tmp_bind_on_unconverted_logger heap_single 0 0 DictClass ctx_z9
              0 ctx_a1 kw_b2 (λ l, [(0, op_bind l kw_c3)])
              wf_heap_single eq_refl eq_refl Hlogger Hself)
    as (fr & tmp & σ1 & He & _ & _ & Hexit).
  vm_compute in He. injection He as <- <- <-.
  destruct (Hexit _ eq_refl) as (σ3 & Hwith & Hctx & _).
  rewrite Hwith. exact Hctx.
Defined.

(** ** Equality, further *)

(** X13.  On live context instances [==] is an equivalence: every
    instance equals itself, [a == b] and [b == a] give the same answer,
    and [a == b] with [b == c] gives [a == c].  The comparison never
    changes the heap; unlike [len], [iter] and [repr] it does not make the
    calling thread's mapping. *)
Theorem eq_is_an_equivalence σ i j k ci cj ck :
  is_inst σ i ci → is_inst σ j cj → is_inst σ k ck →
  __eq__ i (OInst i) σ = (Return true, σ)
  ∧ __eq__ i (OInst j) σ = __eq__ j (OInst i) σ
  ∧ (__eq__ i (OInst j) σ = (Return true, σ) →
     __eq__ j (OInst k) σ = (Return true, σ) →
     __eq__ i (OInst k) σ = (Return true, σ))
  ∧ (∀ other, (__eq__ i other σ).2 = σ).
Proof.
  intros (oi & Hi & <-) (oj & Hj & <-) (ok & Hk & <-).
  assert (Heq : ∀ x y ox oy,
    instances σ !! x = Some ox → instances σ !! y = Some oy →
    __eq__ x (OInst y) σ
    = (Return (bool_decide (Wrapped (inst_class ox) = Wrapped (inst_class oy))),
       σ)).
  { intros x y ox oy Hx Hy. unfold __eq__.
    rewrite (bindM_Return _ _ _ _ _ (class_of_inst _ _ _ Hx)).
    by rewrite (bindM_Return _ _ _ _ _ (class_of_inst _ _ _ Hy)). }
  split_and!.
  - rewrite (Heq _ _ _ _ Hi Hi). by rewrite bool_decide_eq_true_2.
  - rewrite (Heq _ _ _ _ Hi Hj), (Heq _ _ _ _ Hj Hi).
    do 2 f_equal. apply bool_decide_ext. split; congruence.
  - rewrite (Heq _ _ _ _ Hi Hj), (Heq _ _ _ _ Hj Hk), (Heq _ _ _ _ Hi Hk).
    intros [= H1%bool_decide_eq_true_1] [= H2%bool_decide_eq_true_1].
    rewrite bool_decide_eq_true_2; [done|congruence].
  - intros other. unfold __eq__.
    rewrite (bindM_Return _ _ _ _ _ (class_of_inst _ _ _ Hi)).
    destruct other as [dc m|x]; [done|].
    unfold bindM, class_of, the_instance, bindM, get_heap, deref. simpl.
    by destruct (instances σ !! x).
Qed.

Lemma eq_is_an_equivalence_witness :
  is_inst heap_shared 0 0 ∧ is_inst heap_shared 1 0
  ∧ __eq__ 0 (OInst 1) heap_shared = __eq__ 1 (OInst 0) heap_shared.
Proof.
  assert (H0 : is_inst heap_shared 0 0) by (eexists; split; reflexivity).
  assert (H1 : is_inst heap_shared 1 0) by (eexists; split; reflexivity).
  split; [exact H0|]. split; [exact H1|].
  exact (proj1 (proj2 (eq_is_an_equivalence heap_shared 0 1 0 0 0 0
                         H0 H1 H0))).
Defined.

(** ** Forwarded calls, further *)

(** The first forwarded call of a name through an instance: the method is
    taken from the calling thread's mapping, made on the spot if the
    thread had none. *)
Lemma forwarded_first_call σ t i o cl :
  wf_heap σ → instances σ !! i = Some o →
  inst_dict o !! call_name cl = None → call_name cl ∈ dict_attrs →
  ∃ a σ1,
    call_forwarded t i cl σ = apply_method t a cl σ1
    ∧ wf_heap σ1
    ∧ slot σ1 (inst_class o) t = Some a
    ∧ mappings σ1 !! a = Some (default ∅ (context σ (inst_class o) t))
    ∧ classes σ1 !! inst_class o ≠ None.
Proof.
  intros Hwf Ho Hfree Hname.
  destruct (keeps_getattr anything anything t (λ _, Logic.I) i (call_name cl)
              σ Hwf) as (Hwf1 & _ & _).
  destruct (wf_inst_class _ Hwf _ _ Ho) as [C HC].
  destruct (_tl C !! t) as [a|] eqn:Ha.
  - assert (Hs : slot σ (inst_class o) t = Some a) by (apply slot_Some; eauto).
    destruct (wf_slot_valid _ Hwf _ _ _ Hs) as [d Hd].
    rewrite (getattr_miss _ _ _ _ _ _ Ho Hfree Hname Hs) in Hwf1.
    exists a. eexists. split_and!.
    + unfold call_forwarded.
      by rewrite (bindM_Return _ _ _ _ _
                    (getattr_miss _ _ _ _ _ _ Ho Hfree Hname Hs)).
    + exact Hwf1.
    + done.
    + unfold context. rewrite Hs. by rewrite Hd.
    + unfold with_attr. simpl. by rewrite HC.
  - assert (Hs : slot σ (inst_class o) t = None) by (unfold slot; by rewrite HC).
    rewrite (getattr_miss_fill _ _ _ _ _ _ Ho HC Ha Hfree Hname) in Hwf1.
    exists (length (mappings σ)). eexists. split_and!.
    + unfold call_forwarded.
      by rewrite (bindM_Return _ _ _ _ _
                    (getattr_miss_fill _ _ _ _ _ _ Ho HC Ha Hfree Hname)).
    + exact Hwf1.
    + transitivity (slot (fill_slot σ (inst_class o) C t) (inst_class o) t);
        [done|].
      rewrite slot_fill_slot; [|done]. by rewrite decide_True.
    + unfold context. rewrite Hs. simpl.
      rewrite lookup_app_r; [|done]. by rewrite Nat.sub_diag.
    + unfold with_attr. simpl.
      rewrite list_lookup_insert_eq; [done|by eapply lookup_lt_Some].
Qed.

Lemma clear_in_dict_attrs : "clear" ∈ dict_attrs.
Proof. apply (bool_decide_unpack _). by vm_compute. Qed.

(** X14.  Clearing and then constructing replaces the context: through
    an instance that has no [clear] stored, [ctx.clear()] always returns
    and leaves the calling thread's context empty, and a following
    [T( **kw)] on that thread, with no keyword named [self], leaves
    exactly [kw]. *)
Theorem clear_then_construct_replaces σ t i o kw :
  wf_heap σ → instances σ !! i = Some o → inst_dict o !! "clear" = None →
  "self" ∉ dom kw →
  ∃ σ1 σ2 j,
    call_forwarded t i c_clear σ = (Return VNone, σ1)
    ∧ context σ1 (inst_class o) t = Some ∅
    ∧ construct t (inst_class o) [] kw σ1 = (Return j, σ2)
    ∧ context σ2 (inst_class o) t = Some kw.
Proof.
  intros Hwf Ho Hfree Hkw.
  destruct (forwarded_first_call σ t i o c_clear Hwf Ho Hfree
              clear_in_dict_attrs)
    as (a & σ0 & Hcall & Hwf0 & Hs0 & Hm0 & HC0).
  destruct (classes σ0 !! inst_class o) as [C0|] eqn:HC0'; [|done].
  assert (Hwf1 : wf_heap (set_mapping a ∅ σ0).2) by by apply wf_set_mapping.
  assert (Hctx1 : context (set_mapping a ∅ σ0).2 (inst_class o) t = Some ∅).
  { apply context_set_mapping; [done|by eexists]. }
  destruct (context_of_construct_no_args (set_mapping a ∅ σ0).2 t
              (inst_class o) C0 kw Hwf1 HC0' Hkw)
    as (σ2 & Hc & _ & _ & Hctx2).
  eexists _, σ2, _. split_and!.
  - rewrite Hcall. reflexivity.
  - exact Hctx1.
  - exact Hc.
  - rewrite Hctx2, Hctx1. simpl. by rewrite (right_id_L ∅ (∪)).
Qed.

Lemma clear_then_construct_replaces_witness :
  wf_heap heap_single ∧ context heap_single 0 0 = Some ctx_a1
  ∧ ("self" ∉ dom kw_b2)
  ∧ ∃ σ1,
      call_forwarded 0 0 c_clear heap_single = (Return VNone, σ1)
      ∧ context (construct 0 0 [] kw_b2 σ1).2 0 0 = Some kw_b2.
Proof.
  assert (Hkw : "self" ∉ dom kw_b2) by (by apply not_elem_of_dom).
  split; [exact wf_heap_single|]. split; [reflexivity|]. split; [exact Hkw|].
  destruct (clear_then_construct_replaces heap_single 0 0
              {| inst_class := 0; inst_dict := ∅ |} kw_b2
              wf_heap_single eq_refl eq_refl Hkw)
    as (σ1 & σ2 & j & Hclear & _ & Hc & Hctx).
  cbn [inst_class] in Hc, Hctx.
  exists σ1. split; [exact Hclear|]. rewrite Hc. exact Hctx.
Defined.

(** X15.  A forwarded [update] through a method that the instance stored
    while thread [t1] was running writes into the mapping of [t1], from
    whichever thread it is called: called by [t2], it merges the keywords
    into the context of [t1] and leaves the context of [t2] as it was. *)
Theorem stored_update_writes_to_first_thread σ t1 t2 i o method m1 kw :
  wf_heap σ → instances σ !! i = Some o →
  inst_dict o !! "update" = Some method →
  slot σ (inst_class o) t1 = Some (im_self method) →
  mappings σ !! im_self method = Some m1 → t2 ≠ t1 →
  ∃ σ',
    call_forwarded t2 i (c_update [] kw) σ = (Return VNone, σ')
    ∧ context σ' (inst_class o) t1 = Some (kw ∪ m1)
    ∧ context σ' (inst_class o) t2 = context σ (inst_class o) t2.
Proof.
  intros Hwf Ho Hm Hs Hm1 Hne.
  exists (set_mapping (im_self method) (kw ∪ m1) σ).2. split_and!.
  - unfold call_forwarded.
    rewrite (bindM_Return _ _ _ _ _ (getattr_cached _ t2 _ _ _ _ Ho Hm)).
    unfold apply_method.
    by rewrite (bindM_Return _ _ _ _ _ (dict_update_nil _ _ _ _ _ Hm1)).
  - apply context_set_mapping; [done|by eexists].
  - unfold context.
    change (slot (set_mapping (im_self method) (kw ∪ m1) σ).2
              (inst_class o) t2) with (slot σ (inst_class o) t2).
    destruct (slot σ (inst_class o) t2) as [a2|] eqn:Hs2; [|done].
    simpl. apply list_lookup_insert_ne. intros Heq. rewrite Heq in Hs.
    destruct (wf_slot_inj _ Hwf _ _ _ _ _ Hs Hs2) as [_ ?]. congruence.
Qed.

Lemma stored_update_writes_to_first_thread_witness :
  ∃ σ,
    σ = (run_ops [(1, op_wrap_dict DictClass "0001");
                  (1, op_construct 0 [] ctx_z9);
                  (1, op_call 0 (c_update [] ∅));
                  (0, op_construct 0 [] ctx_a1)] empty_heap).2
    ∧ wf_heap σ
    ∧ context σ 0 0 = Some ctx_a1
    ∧ context (call_forwarded 0 0 (c_update [] kw_b2) σ).2 0 1
      = Some (kw_b2 ∪ ctx_z9)
    ∧ context (call_forwarded 0 0 (c_update [] kw_b2) σ).2 0 0
      = Some ctx_a1.
Proof.
  eexists. split; [reflexivity|].
  split; [apply wf_run_ops, wf_empty_heap|]. split; [reflexivity|].
  match goal with
  | |- context [call_forwarded 0 0 _ ?σ] =>
      destruct (stored_update_writes_to_first_thread σ 1 0 0
                  {| inst_class := 0;
                     inst_dict := {["update" := BoundMethod 0 "update"]} |}
                  (BoundMethod 0 "update") ctx_z9 kw_b2)
        as (σ' & Hcall & H1 & H0)
  end; try reflexivity.
  - apply wf_run_ops, wf_empty_heap.
  - lia.
  - cbn [inst_class] in H1, H0.
    rewrite Hcall. split; [exact H1|]. cbn [snd]. rewrite H0. reflexivity.
Defined.

(** ** Keyword names that collide with a parameter *)

(** X18.  A keyword named [self] stops the call of [__init__]: whatever
    the other arguments, construction raises [TypeError] and the body of
    [__init__] does not run.  Every class, slot and mapping is as before,
    so a thread that had no mapping still has none, and every instance
    that existed is unchanged. *)
Theorem construct_keyword_named_self σ t c C args kw :
  classes σ !! c = Some C → "self" ∈ dom kw →
  ∃ σ',
    construct t c args kw σ = (Raise TypeError, σ')
    ∧ classes σ' = classes σ
    ∧ mappings σ' = mappings σ
    ∧ (∀ c' t', slot σ' c' t' = slot σ c' t'
                ∧ context σ' c' t' = context σ c' t')
    ∧ (∀ i o, instances σ !! i = Some o → instances σ' !! i = Some o).
Proof.
  intros HC Hkw. exists (with_new_instance σ c). split_and!; try done.
  - by eapply construct_raises_on_self.
  - intros i o Ho. simpl. by apply lookup_app_l_Some.
Qed.

Lemma construct_keyword_named_self_witness :
  classes heap_single !! 0
  = Some {| cls_name := "WrappedDict-0001"; _dict_class := DictClass;
            _tl := {[0 := 0]} |}
  ∧ ("self" ∈ dom ({["self" := 1%Z]} : pydict))
  ∧ (construct 1 0 [] {["self" := 1%Z]} heap_single).1 = Raise TypeError
  ∧ slot (construct 1 0 [] {["self" := 1%Z]} heap_single).2 0 1 = None
  ∧ context (construct 1 0 [] {["self" := 1%Z]} heap_single).2 0 0
    = Some ctx_a1.
Proof.
  assert (Hkw : "self" ∈ dom ({["self" := 1%Z]} : pydict)).
  { apply elem_of_dom. by eexists. }
  split; [reflexivity|]. split; [exact Hkw|].
  destruct (construct_keyword_named_self heap_single 1 0 _ []
              {["self" := 1%Z]} eq_refl Hkw)
    as (σ' & Hc & _ & _ & Hsame & _).
  rewrite Hc. split; [reflexivity|].
  split; [exact (proj1 (Hsame 0 1))|exact (proj2 (Hsame 0 0))].
Defined.

(** X19.  A keyword named [logger] never reaches the body of [tmp_bind]:
    the call raises [TypeError] whatever the logger, before the test of
    the context class and before any snapshot; the block is not run and
    the heap is the one before the call. *)
Theorem tmp_bind_keyword_named_logger {A} t logger tmp_values
    (block : bound_logger → M A) σ :
  "logger" ∈ dom tmp_values →
  tmp_bind_enter t logger tmp_values σ = (Raise TypeError, σ)
  ∧ with_tmp_bind t logger tmp_values block σ = (Raise TypeError, σ).
Proof.
  intros Hk.
  assert (He : tmp_bind_enter t logger tmp_values σ = (Raise TypeError, σ)).
  { unfold tmp_bind_enter. by rewrite bool_decide_eq_true_2. }
  split; [done|]. unfold with_tmp_bind. by rewrite (bindM_Raise _ _ _ _ _ He).
Qed.

Lemma tmp_bind_keyword_named_logger_witness :
  ("logger" ∈ dom ({["logger" := 1%Z]} : pydict))
  ∧ with_tmp_bind 0 plain_logger {["logger" := 1%Z]} (λ _, ret tt)
      heap_single
    = (Raise TypeError, heap_single).
Proof.
  assert (Hk : "logger" ∈ dom ({["logger" := 1%Z]} : pydict)).
  { apply elem_of_dom. by eexists. }
  split; [exact Hk|].
  exact (proj2 (tmp_bind_keyword_named_logger 0 plain_logger
                  {["logger" := 1%Z]} (λ _, ret tt) heap_single Hk)).
Defined.

(** X20.  A keyword named [self] passes the call of [tmp_bind] and the
    snapshot, and then stops [logger.bind]: for a logger in thread-local
    mode entering raises [TypeError], the block is not run, and the
    calling thread's context holds what it held before. *)
Theorem tmp_bind_keyword_named_self {A} σ t c i o a m0 tmp_values
    (block : bound_logger → M A) :
  wf_heap σ → instances σ !! i = Some o → inst_class o = c →
  slot σ c t = Some a → mappings σ !! a = Some m0 →
  "logger" ∉ dom tmp_values → "self" ∈ dom tmp_values →
  ∃ σ',
    with_tmp_bind t
      {| _current_context_class := Wrapped c; _context := OInst i |}
      tmp_values block σ = (Raise TypeError, σ')
    ∧ slot σ' c t = Some a
    ∧ context σ' c t = Some m0.
Proof.
  intros Hwf Ho Hc Hs Hm Hlogger Hself.
  destruct (context_copy_eval σ t c i o a m0 Hwf Ho Hc Hs Hm)
    as (saved & σc & Hcopy & Hcls & Hmaps & Hi & _).
  assert (HC : ∃ C, classes σc !! c = Some C).
  { apply slot_Some in Hs as (C & HC & _). exists C. by rewrite Hcls. }
  destruct HC as [C HC].
  pose proof (construct_raises_on_self σc t c C [AInst i] tmp_values HC
                Hself) as Hcons.
  exists (with_new_instance σc c). split_and!.
  - unfold with_tmp_bind. apply bindM_Raise. unfold tmp_bind_enter.
    rewrite bool_decide_eq_false_2; [|done]. simpl.
    rewrite (bindM_Return _ _ _ _ _ Hcopy). apply bindM_Raise.
    unfold bind. simpl. by apply bindM_Raise.
  - unfold slot. simpl. rewrite Hcls. exact Hs.
  - unfold context, slot. simpl. rewrite Hcls.
    unfold slot in Hs. rewrite Hs. by rewrite Hmaps.
Qed.

Lemma tmp_bind_keyword_named_self_witness :
  wf_heap heap_single ∧ context heap_single 0 0 = Some ctx_a1
  ∧ ("logger" ∉ dom ({["self" := 1%Z]} : pydict))
  ∧ ("self" ∈ dom ({["self" := 1%Z]} : pydict))
  ∧ (with_tmp_bind 0 the_logger {["self" := 1%Z]} (λ _, ret tt)
       heap_single).1 = Raise TypeError
  ∧ context (with_tmp_bind 0 the_logger {["self" := 1%Z]} (λ _, ret tt)
               heap_single).2 0 0 = Some ctx_a1.
Proof.
  assert (Hl : "logger" ∉ dom ({["self" := 1%Z]} : pydict))
    by (by apply not_elem_of_dom).
  assert (Hk : "self" ∈ dom ({["self" := 1%Z]} : pydict)).
  { apply elem_of_dom. by eexists. }
  split; [exact wf_heap_single|]. split; [reflexivity|].
  split; [exact Hl|]. split; [exact Hk|].
  destruct (tmp_bind_keyword_named_self heap_single 0 0 0
              {| inst_class := 0; inst_dict := ∅ |} 0 ctx_a1
              {["self" := 1%Z]} (λ _, ret tt : M unit)
              wf_heap_single eq_refl eq_refl eq_refl eq_refl Hl Hk)
    as (σ' & Hwith & _ & Hctx).
  unfold the_logger. rewrite Hwith. split; [reflexivity|exact Hctx].
Defined.
